(** * Exponentially modified Gaussian distributions of Stats_with_Scipy.ipynb

    The notebook defines three subclasses of scipy.stats.rv_continuous:
    EMG_gen1 (analytic _pdf, _cdf, _stats and _argcheck), EMG_gen2 (adds a
    table-interpolated _ppf) and EMG_gen3 (adds a _rvs that sums a normal and
    an exponential draw).  This development embeds those methods and proves
    the properties the specification states about them.

    Numbers.  The method bodies are embedded twice.

    - Over the real numbers [R]: a finite float is read as the real it denotes
      and every operation is exact.  This reading carries the statements of
      analysis: derivatives, improper integrals, moments, the law of a sum.
      scipy.special.erf is 2/sqrt(pi) * integral of exp(-t^2) from 0 to x,
      built from the Riemann integral of the Standard Library.

    - Over [pyfloat] in module [F64]: a float is a finite real, an infinity or
      NaN, and every result is brought into the range of binary64: it
      overflows to an infinity from 2^1024 and underflows to zero below
      2^-1075; an infinity times zero is NaN.  Rounding of the significand is
      not modelled.  This reading carries what depends on the values the
      code returns in its tails: saturation of the cumulative function, ties
      in the quantile table, NaN. *)

From Stdlib Require Import Reals Lra Lia Psatz List ZArith Zfloor Bool String.
Import ListNotations.
Open Scope R_scope.

(** ** Integrals of continuous functions *)

Section ContinuousIntegral.
Variable f : R -> R.
Hypothesis f_cont : continuity f.

Lemma cont_RI (a b : R) : Riemann_integrable f a b.
Proof.
  destruct (Rle_dec a b) as [Hab|Hab].
  - apply continuity_implies_RiemannInt; [exact Hab | intros; apply f_cont].
  - apply RiemannInt_P1, continuity_implies_RiemannInt; [lra | intros; apply f_cont].
Defined.

Definition cint (a b : R) : R := RiemannInt (cont_RI a b).

Lemma cint_any (a b : R) (pr : Riemann_integrable f a b) : RiemannInt pr = cint a b.
Proof. apply RiemannInt_P5. Qed.

Lemma cint_chasles (a b c : R) : cint a b + cint b c = cint a c.
Proof. unfold cint. apply RiemannInt_P26. Qed.

Lemma cint_refl (a : R) : cint a a = 0.
Proof. generalize (cint_chasles a a a). lra. Qed.

Lemma cint_deriv (a x : R) : derivable_pt_lim (fun y => cint a y) x (f x).
Proof.
  set (lo := Rmin a x - 1). set (hi := Rmax a x + 1).
  assert (Hlo : lo <= a /\ lo < x).
  { unfold lo. generalize (Rmin_l a x) (Rmin_r a x). lra. }
  assert (Hhi : a <= hi /\ x < hi).
  { unfold hi. generalize (Rmax_l a x) (Rmax_r a x). lra. }
  assert (h : lo <= hi) by lra.
  assert (C0 : forall z, lo <= z <= hi -> continuity_pt f z) by (intros; apply f_cont).
  apply derivable_pt_lim_locally_ext with
    (f := fun y => primitive h (FTC_P1 h C0) y - cint lo a) (a := lo) (b := hi).
  - lra.
  - intros z Hz. unfold primitive.
    destruct (Rle_dec lo z) as [H1|H1]; [|lra].
    destruct (Rle_dec z hi) as [H2|H2]; [|lra].
    rewrite cint_any. generalize (cint_chasles lo a z). lra.
  - replace (f x) with (f x - 0) by ring.
    apply derivable_pt_lim_minus.
    + apply RiemannInt_P28. lra.
    + apply derivable_pt_lim_const.
Qed.
End ContinuousIntegral.

(** ** Derivatives: combinators over [derivable_pt_lim] *)

Abbreviation dl := derivable_pt_lim.

Lemma dl_eq (f : R -> R) (x l l' : R) : l = l' -> dl f x l -> dl f x l'.
Proof. intros ->; auto. Qed.

Lemma dl_const (c x : R) : dl (fun _ => c) x 0.
Proof. apply derivable_pt_lim_const. Qed.

Lemma dl_id (x : R) : dl (fun y => y) x 1.
Proof. apply derivable_pt_lim_id. Qed.

Lemma dl_plus (f g : R -> R) (x a b : R) :
  dl f x a -> dl g x b -> dl (fun y => f y + g y) x (a + b).
Proof. intros; now apply derivable_pt_lim_plus. Qed.

Lemma dl_minus (f g : R -> R) (x a b : R) :
  dl f x a -> dl g x b -> dl (fun y => f y - g y) x (a - b).
Proof. intros; now apply derivable_pt_lim_minus. Qed.

Lemma dl_opp (f : R -> R) (x a : R) :
  dl f x a -> dl (fun y => - f y) x (- a).
Proof. intros; now apply derivable_pt_lim_opp. Qed.

Lemma dl_mult (f g : R -> R) (x a b : R) :
  dl f x a -> dl g x b -> dl (fun y => f y * g y) x (a * g x + f x * b).
Proof. intros; now apply derivable_pt_lim_mult. Qed.

Lemma dl_comp (f g : R -> R) (x a b : R) :
  dl f x a -> dl g (f x) b -> dl (fun y => g (f y)) x (b * a).
Proof. intros; now apply (derivable_pt_lim_comp f g). Qed.

Lemma dl_exp (f : R -> R) (x a : R) :
  dl f x a -> dl (fun y => exp (f y)) x (exp (f x) * a).
Proof. intros; apply dl_comp; [assumption | apply derivable_pt_lim_exp]. Qed.

Lemma dl_div (f g : R -> R) (x a b : R) :
  g x <> 0 -> dl f x a -> dl g x b ->
  dl (fun y => f y / g y) x ((a * g x - b * f x) / Rsqr (g x)).
Proof. intros Hx Hf Hg; now apply (derivable_pt_lim_div f g). Qed.

Ltac dl_auto :=
  repeat first
    [ apply dl_const | apply dl_id | apply dl_plus | apply dl_minus | apply dl_opp
    | apply dl_mult | apply dl_exp | eassumption
    | match goal with H : forall y, derivable_pt_lim _ y _ |- _ => apply H end ].

Ltac dl_by := eapply dl_eq; [ | dl_auto ]; cbv beta.

Lemma dl_continuity_pt (f : R -> R) (x l : R) : dl f x l -> continuity_pt f x.
Proof. intros H. apply derivable_continuous_pt. exists l. exact H. Qed.


(** ** Special functions used by the notebook *)

Definition gauss (t : R) : R := exp (- (t * t)).

Lemma gauss_dl (x : R) : dl gauss x (- 2 * x * gauss x).
Proof. unfold gauss. dl_by. ring. Qed.

Lemma gauss_cont : continuity gauss.
Proof. intros x. eapply dl_continuity_pt, gauss_dl. Qed.

(** The integral of exp(-t^2) from 0 to x. *)
Definition Gint (x : R) : R := cint gauss gauss_cont 0 x.

(** scipy.special.erf and scipy.special.erfc (imported on line 29). *)
Definition erf (x : R) : R := 2 / sqrt PI * Gint x.
Definition erfc (x : R) : R := 1 - erf x.

(** scipy.special.ndtr, the standard normal cumulative function, and the
    standard normal density. *)
Definition ndtr (z : R) : R := 0.5 * (1 + erf (z / sqrt 2)).
Definition phi (z : R) : R := exp (- (z * z) / 2) / sqrt (2 * PI).

(** scipy.stats.norm with its loc and scale keywords, for scale > 0;
    [F64.norm.cdf] has the scale check. *)
Module norm.
Definition cdf (x loc scale : R) : R := ndtr ((x - loc) / scale).
Definition pdf (x loc scale : R) : R := phi ((x - loc) / scale) / scale.
End norm.

(** scipy.stats.expon: density exp(-y) on y >= 0 under the loc/scale transform. *)
Module expon.
Definition pdf (x loc scale : R) : R :=
  let y := (x - loc) / scale in
  (if Rle_dec 0 y then exp (- y) else 0) / scale.
End expon.

(** ** Python floats *)

(** A Python float: a finite value or one of the IEEE special values. *)
Inductive pyfloat : Type :=
| Fin (r : R)
| PosInf
| NegInf
| NaN.

(** numpy.isfinite *)
Definition isfinite (x : pyfloat) : bool :=
  match x with
  | Fin _ => true
  | PosInf | NegInf | NaN => false
  end.

(** The comparison [x > 0]; every comparison with NaN is false. *)
Definition gt0 (x : pyfloat) : bool :=
  match x with
  | Fin r => if Rlt_dec 0 r then true else false
  | PosInf => true
  | NegInf | NaN => false
  end.

Definition is_finite (x : pyfloat) : Prop := exists r, x = Fin r.

Definition is_positive (x : pyfloat) : Prop :=
  match x with
  | Fin r => 0 < r
  | PosInf => True
  | NegInf | NaN => False
  end.

(** ** numpy helpers *)

(** numpy.arange(start, stop, step) for step > 0: ceil((stop - start) / step)
    points start + i * step. *)
Definition arange (start stop step : R) : list R :=
  map (fun i => start + INR i * step) (seq 0 (Z.to_nat (Zceil ((stop - start) / step)))).

(** numpy.interp(q, xp, fp) for a scalar q: fp[0] left of the table, fp[-1]
    right of it, and on a segment xp[j] <= q < xp[j+1] the value
    slope * (q - xp[j]) + fp[j].  On increasing xp the scan below selects the
    segment numpy's binary search selects.  An empty table is an error (None). *)
Fixpoint interp_from (q x0 y0 : R) (xp fp : list R) : R :=
  match xp, fp with
  | x1 :: xp', y1 :: fp' =>
      if Rlt_dec q x1 then (y1 - y0) / (x1 - x0) * (q - x0) + y0
      else interp_from q x1 y1 xp' fp'
  | _, _ => y0
  end.

Definition interp (q : R) (xp fp : list R) : option R :=
  match xp, fp with
  | x0 :: xp', y0 :: fp' => Some (if Rlt_dec q x0 then y0 else interp_from q x0 y0 xp' fp')
  | _, _ => None
  end.

(** ** The three generating classes (notebook lines 135-176) *)

Module rv_continuous.
(** The public cdf method with the default loc = 0 and scale = 1, on a finite
    argument inside the support and parameters that pass _argcheck: it returns
    what _cdf returns.  [F64.rv_continuous.cdf] has the other cases. *)
Definition cdf (_cdf : R -> R -> R -> R -> R) (x mu sig lam : R) : R := _cdf x mu sig lam.
End rv_continuous.

Module EMG_gen1.
Definition _pdf (x mu sig lam : R) : R :=
  let u := 0.5 * lam * (2 * mu + lam * sig ^ 2 - 2 * x) in
  let v := (mu + lam * sig ^ 2 - x) / (sig * sqrt 2) in
  0.5 * lam * exp u * erfc v.

Definition _cdf (x mu sig lam : R) : R :=
  let u := lam * (x - mu) in
  let v := lam * sig in
  let phi1 := norm.cdf u 0 v in
  let phi2 := norm.cdf u (v ^ 2) v in
  phi1 - phi2 * exp (- u + 0.5 * v ^ 2).

Definition _stats (mu sig lam : R) : R * R * R * R :=
  let mean := mu + 1 / lam in
  let var := sig ^ 2 + 1 / lam ^ 2 in
  let sl := sig * lam in
  let u := 1 + 1 / sl ^ 2 in
  let skew := (2 / sl ^ 3) * Rpower u (- 3 / 2) in
  let v := 3 * (1 + 2 / sl ^ 2 + 3 / sl ^ 4) / u ^ 2 in
  let kurt := v - 3 in
  (mean, var, skew, kurt).

Definition _argcheck (mu sig lam : pyfloat) : bool :=
  isfinite mu && gt0 sig && gt0 lam.
End EMG_gen1.

Module EMG_gen2.
Definition _ppf (q mu sig lam : R) : option R :=
  let var := sig ^ 2 + 1 / lam ^ 2 in
  let x := arange (mu - 50 * sqrt var) (mu + 50 * sqrt var) 0.01 in
  let y := map (fun xi => rv_continuous.cdf EMG_gen1._cdf xi mu sig lam) x in
  interp q y x.
End EMG_gen2.

(** Python's [+] on the values a sampler returns. *)
Class PyAdd (A : Type) : Type := py_add : A -> A -> A.

#[global] Instance float_add : PyAdd R := Rplus.

(** A primitive sampler of the random source: loc, scale and size to the draws. *)
Definition sampler_of (A : Type) : Type := R -> R -> nat -> list A.
Definition sampler : Type := sampler_of R.

Module EMG_gen3.
(** [size] is self._size; the sum of two arrays of that size is elementwise. *)
Definition _rvs {A : Type} {add : PyAdd A} (norm_rvs expon_rvs : sampler_of A)
    (size : nat) (mu sig lam : R) : list A :=
  map (fun p => py_add (fst p) (snd p))
      (combine (norm_rvs mu sig size) (expon_rvs 0 (1 / lam) size)).
End EMG_gen3.

(** ** Random draws by their law *)

(** A draw of scipy's generators, kept as the distribution it comes from; the
    sum of two draws is the sum of independent variables. *)
Inductive draw : Type :=
| normal_draw (loc scale : R)
| expon_draw (loc scale : R)
| sum_draw (X Y : draw).


(** scipy.stats.norm.rvs and scipy.stats.expon.rvs: [size] independent draws. *)
Module st.
Definition norm_rvs : sampler_of draw :=
  fun loc scale size => repeat (normal_draw loc scale) size.
Definition expon_rvs : sampler_of draw :=
  fun loc scale size => repeat (expon_draw loc scale) size.
End st.

(** ** Method resolution *)

(** The methods a subclass of rv_continuous may override (notebook lines 102-111). *)
Inductive method : Type :=
| m_rvs | m_pdf | m_cdf | m_sf | m_ppf | m_isf | m_stats | m_munp | m_entropy | m_argcheck.

Inductive impl : Type :=
| PdfImpl (f : R -> R -> R -> R -> R)
| CdfImpl (f : R -> R -> R -> R -> R)
| StatsImpl (f : R -> R -> R -> R * R * R * R)
| ArgcheckImpl (f : pyfloat -> pyfloat -> pyfloat -> bool)
| PpfImpl (f : R -> R -> R -> R -> option R)
| RvsImpl (f : sampler -> sampler -> nat -> R -> R -> R -> list R).

Inductive pyclass : Type :=
| cls_rv_continuous
| cls_EMG_gen1
| cls_EMG_gen2
| cls_EMG_gen3.

(** The base named in each class statement. *)
Definition base (c : pyclass) : option pyclass :=
  match c with
  | cls_rv_continuous => None
  | cls_EMG_gen1 => Some cls_rv_continuous
  | cls_EMG_gen2 => Some cls_EMG_gen1
  | cls_EMG_gen3 => Some cls_EMG_gen1
  end.

(** The methods each class statement of the notebook defines itself.  The
    library class cls_rv_continuous has no body here: a lookup that reaches it
    finds scipy's generic method. *)
Definition class_body (c : pyclass) (m : method) : option impl :=
  match c, m with
  | cls_EMG_gen1, m_pdf => Some (PdfImpl EMG_gen1._pdf)
  | cls_EMG_gen1, m_cdf => Some (CdfImpl EMG_gen1._cdf)
  | cls_EMG_gen1, m_stats => Some (StatsImpl EMG_gen1._stats)
  | cls_EMG_gen1, m_argcheck => Some (ArgcheckImpl EMG_gen1._argcheck)
  | cls_EMG_gen2, m_ppf => Some (PpfImpl EMG_gen2._ppf)
  | cls_EMG_gen3, m_rvs => Some (RvsImpl EMG_gen3._rvs)
  | _, _ => None
  end.

Fixpoint mro_from (fuel : nat) (c : pyclass) : list pyclass :=
  match fuel with
  | O => []
  | S fuel' =>
      c :: match base c with
           | Some b => mro_from fuel' b
           | None => []
           end
  end.

Definition mro (c : pyclass) : list pyclass := mro_from 4 c.

Fixpoint resolve (l : list pyclass) (m : method) : option (pyclass * impl) :=
  match l with
  | [] => None
  | c :: l' =>
      match class_body c m with
      | Some f => Some (c, f)
      | None => resolve l' m
      end
  end.

(** The instances made on lines 174-176, by their class. *)
Definition EMG1 : pyclass := cls_EMG_gen1.
Definition EMG2 : pyclass := cls_EMG_gen2.
Definition EMG3 : pyclass := cls_EMG_gen3.

(** The method an attribute lookup on an instance finds: the defining class
    and its function, or None for scipy's generic method. *)
Definition bound_method (inst : pyclass) (m : method) : option (pyclass * impl) :=
  resolve (mro inst) m.

(** The density, cumulative, moment and validation results an instance gives:
    the call of the method bound to it. *)
Definition density (inst : pyclass) (x mu sig lam : R) : option R :=
  match bound_method inst m_pdf with
  | Some (_, PdfImpl f) => Some (f x mu sig lam)
  | _ => None
  end.

Definition cumulative (inst : pyclass) (x mu sig lam : R) : option R :=
  match bound_method inst m_cdf with
  | Some (_, CdfImpl f) => Some (f x mu sig lam)
  | _ => None
  end.

Definition moments (inst : pyclass) (mu sig lam : R) : option (R * R * R * R) :=
  match bound_method inst m_stats with
  | Some (_, StatsImpl f) => Some (f mu sig lam)
  | _ => None
  end.

Definition validate_params (inst : pyclass) (mu sig lam : pyfloat) : option bool :=
  match bound_method inst m_argcheck with
  | Some (_, ArgcheckImpl f) => Some (f mu sig lam)
  | _ => None
  end.

(** ** The notebook's global namespace *)

(** A top-level statement, by the global names it reads and the names it binds. *)
Record stmt : Type := Stmt { reads : list string; binds : list string }.

Inductive run_result : Type :=
| Completed (ns : list string)
| NameError (cell : nat) (name : string).

Fixpoint first_unbound (ns names : list string) : option string :=
  match names with
  | [] => None
  | n :: names' =>
      if existsb (String.eqb n) ns then first_unbound ns names' else Some n
  end.

Fixpoint run_cell (ns : list string) (ss : list stmt) : list string + string :=
  match ss with
  | [] => inl ns
  | s :: ss' =>
      match first_unbound ns (reads s) with
      | Some n => inr n
      | None => run_cell (binds s ++ ns) ss'
      end
  end.

Fixpoint run_cells (k : nat) (ns : list string) (cells : list (list stmt)) : run_result :=
  match cells with
  | [] => Completed ns
  | c :: cells' =>
      match run_cell ns c with
      | inl ns' => run_cells (S k) ns' cells'
      | inr n => NameError k n
      end
  end.

Definition builtins : list string := ["print"; "range"]%string.

Definition rd (names : list string) : stmt := Stmt names [].

(** Code cell 1, lines 26-34. *)
Definition cell1 : list stmt :=
  [ Stmt [] ["np"]; Stmt [] ["st"]; Stmt [] ["erfc"]; Stmt [] ["plt"]; Stmt [] ["hist"];
    Stmt [] ["mpl_style"]; rd ["plt"; "mpl_style"] ]%string.

(** Code cell 2, lines 52-70. *)
Definition cell2 : list stmt :=
  [ Stmt ["st"] ["norm"]; Stmt ["np"] ["x"]; rd ["plt"]; rd ["plt"];
    rd ["plt"; "x"; "norm"]; rd ["plt"]; rd ["plt"]; rd ["plt"]; rd ["plt"];
    rd ["plt"; "x"; "norm"]; rd ["plt"]; rd ["plt"]; rd ["plt"]; rd ["plt"];
    Stmt ["norm"] ["sample_norm"]; rd ["hist"; "sample_norm"];
    rd ["plt"]; rd ["plt"]; rd ["plt"] ]%string.

(** Code cell 3, lines 88-91. *)
Definition cell3 : list stmt :=
  [ Stmt ["range"] ["i"]; rd ["print"; "i"; "norm"];
    rd ["print"; "st"; "sample_norm"] ]%string.

(** Code cell 4, lines 134-176: three class statements and three instances. *)
Definition cell4 : list stmt :=
  [ Stmt ["st"] ["EMG_gen1"]; Stmt ["EMG_gen1"] ["EMG_gen2"]; Stmt ["EMG_gen1"] ["EMG_gen3"];
    Stmt ["EMG_gen1"] ["EMG1"]; Stmt ["EMG_gen2"] ["EMG2"]; Stmt ["EMG_gen3"] ["EMG3"] ]%string.

(** Code cell 5, lines 194-199; the calls run method bodies that read np and st. *)
Definition cell5 : list stmt :=
  [ rd ["EMG1"; "st"; "np"]; rd ["print"]; rd ["EMG2"; "st"; "np"]; rd ["print"];
    rd ["EMG3"; "st"]; rd ["print"] ]%string.

(** Code cell 6, lines 219-235. *)
Definition cell6 : list stmt :=
  [ Stmt ["EMG3"] ["dist"]; Stmt ["np"] ["x"]; rd ["plt"]; rd ["plt"];
    rd ["plt"; "x"; "dist"; "np"; "erfc"]; rd ["plt"]; rd ["plt"]; rd ["plt"];
    rd ["plt"; "x"; "dist"; "st"; "np"]; rd ["plt"]; rd ["plt"]; rd ["plt"];
    Stmt ["dist"; "st"] ["sample_emg"]; rd ["hist"; "sample_emg"];
    rd ["plt"]; rd ["plt"]; rd ["plt"] ]%string.

(** Code cell 7, lines 253-256: the moments loop, then the fit call on [EMG]. *)
Definition cell7 : list stmt :=
  [ Stmt ["range"] ["i"]; rd ["print"; "i"; "dist"];
    rd ["print"; "EMG"; "sample_emg"] ]%string.

(** Code cell 8, lines 274-275. *)
Definition cell8 : list stmt :=
  [ Stmt [] ["cd"]; rd ["np"; "cd"] ]%string.

Definition notebook : list (list stmt) :=
  [cell1; cell2; cell3; cell4; cell5; cell6; cell7; cell8].

(** ** Limits at infinity and improper integrals *)

Definition lim_pinf (f : R -> R) (l : R) : Prop :=
  forall eps, 0 < eps -> exists M, forall x, M < x -> Rabs (f x - l) < eps.

Definition lim_minf (f : R -> R) (l : R) : Prop :=
  lim_pinf (fun x => f (- x)) l.

(** Improper Riemann integral over the whole real line. *)
Definition integral_over_R (f : R -> R) (I : R) : Prop :=
  forall eps, 0 < eps ->
    exists M, forall a b, a < - M -> M < b ->
      exists pr : Riemann_integrable f a b, Rabs (RiemannInt pr - I) < eps.



(** The integral over the line through an antiderivative that vanishes at
    minus infinity. *)
Definition newton_integral (f : R -> R) (I : R) : Prop :=
  exists F, (forall x, dl F x (f x)) /\ lim_minf F 0 /\ lim_pinf F I.



(** ** The range of binary64 *)

(** A result of magnitude 2^1024 or more overflows to an infinity; a product,
    quotient or library value of magnitude 2^-1075 or less (half the smallest
    subnormal) underflows to zero. *)
Definition huge : R := 2 ^ 1024.
Definition tiny : R := / 2 ^ 1075.

Declare Scope f64_scope.
Delimit Scope f64_scope with f64.

Module F64.

Definition overflow (r : R) : pyfloat :=
  if Rle_dec huge r then PosInf
  else if Rle_dec r (- huge) then NegInf
  else Fin r.

Definition fl (r : R) : pyfloat :=
  if Rle_dec (Rabs r) tiny then Fin 0 else overflow r.

Definition neg (a : pyfloat) : pyfloat :=
  match a with
  | Fin x => Fin (- x)
  | PosInf => NegInf
  | NegInf => PosInf
  | NaN => NaN
  end.

(** Sums and differences of floats are exact below the overflow threshold. *)
Definition add (a b : pyfloat) : pyfloat :=
  match a, b with
  | NaN, _ | _, NaN => NaN
  | Fin x, Fin y => overflow (x + y)
  | PosInf, NegInf | NegInf, PosInf => NaN
  | PosInf, _ | _, PosInf => PosInf
  | NegInf, _ | _, NegInf => NegInf
  end.

Definition sub (a b : pyfloat) : pyfloat := add a (neg b).

(** An infinity times zero is NaN. *)
Definition mul (a b : pyfloat) : pyfloat :=
  match a, b with
  | NaN, _ | _, NaN => NaN
  | Fin x, Fin y => fl (x * y)
  | Fin x, PosInf | PosInf, Fin x =>
      if Rlt_dec 0 x then PosInf else if Rlt_dec x 0 then NegInf else NaN
  | Fin x, NegInf | NegInf, Fin x =>
      if Rlt_dec 0 x then NegInf else if Rlt_dec x 0 then PosInf else NaN
  | PosInf, PosInf | NegInf, NegInf => PosInf
  | PosInf, NegInf | NegInf, PosInf => NegInf
  end.

(** numpy division: a finite non-zero value over zero is an infinity (with a
    warning), zero over zero is NaN.  The sign of a zero is not modelled. *)
Definition div (a b : pyfloat) : pyfloat :=
  match a, b with
  | NaN, _ | _, NaN => NaN
  | Fin x, Fin y =>
      if Req_dec_T y 0
      then if Rlt_dec 0 x then PosInf else if Rlt_dec x 0 then NegInf else NaN
      else fl (x / y)
  | Fin _, PosInf | Fin _, NegInf => Fin 0
  | PosInf, Fin y => if Rle_dec 0 y then PosInf else NegInf
  | NegInf, Fin y => if Rle_dec 0 y then NegInf else PosInf
  | PosInf, PosInf | PosInf, NegInf | NegInf, PosInf | NegInf, NegInf => NaN
  end.

(** x ** 2 *)
Definition pow2 (a : pyfloat) : pyfloat := mul a a.

(** Comparisons; every comparison with NaN is false. *)
Definition lt (a b : pyfloat) : bool :=
  match a, b with
  | NaN, _ | _, NaN => false
  | Fin x, Fin y => if Rlt_dec x y then true else false
  | _, NegInf => false
  | NegInf, _ => true
  | PosInf, _ => false
  | Fin _, PosInf => true
  end.

Definition eqb (a b : pyfloat) : bool :=
  match a, b with
  | Fin x, Fin y => if Req_dec_T x y then true else false
  | PosInf, PosInf | NegInf, NegInf => true
  | _, _ => false
  end.

Definition isnan (a : pyfloat) : bool :=
  match a with
  | NaN => true
  | _ => false
  end.

(** numpy.exp, numpy.sqrt, scipy.special.erfc and scipy.special.ndtr: the
    exact value brought into the range of binary64.  scipy's erfc and ndtr
    return 0.0 somewhat earlier, as soon as exp(-x^2) underflows; what is
    proved below evaluates them only far beyond both thresholds or well inside
    the range. *)
Definition exp (a : pyfloat) : pyfloat :=
  match a with
  | Fin x => fl (Rtrigo_def.exp x)
  | PosInf => PosInf
  | NegInf => Fin 0
  | NaN => NaN
  end.

Definition sqrt (a : pyfloat) : pyfloat :=
  match a with
  | Fin x => if Rle_dec 0 x then Fin (R_sqrt.sqrt x) else NaN
  | PosInf => PosInf
  | NegInf | NaN => NaN
  end.

Definition erfc (a : pyfloat) : pyfloat :=
  match a with
  | Fin x => fl (erfc x)
  | PosInf => Fin 0
  | NegInf => Fin 2
  | NaN => NaN
  end.

Definition ndtr (a : pyfloat) : pyfloat :=
  match a with
  | Fin z => fl (ndtr z)
  | PosInf => Fin 1
  | NegInf => Fin 0
  | NaN => NaN
  end.

Infix "+" := add : f64_scope.
Infix "-" := sub : f64_scope.
Infix "*" := mul : f64_scope.
Infix "/" := div : f64_scope.
Notation "- x" := (neg x) : f64_scope.

(** scipy.stats.norm.cdf(x, loc, scale): NaN unless scale > 0. *)
Module norm.
Definition cdf (x loc scale : pyfloat) : pyfloat :=
  if gt0 scale then ndtr ((x - loc) / scale)%f64 else NaN.
End norm.

(** The method bodies of lines 136-145 over floats. *)
Definition _pdf (x mu sig lam : pyfloat) : pyfloat :=
  (let u := Fin 0.5 * lam * (Fin 2 * mu + lam * pow2 sig - Fin 2 * x) in
   let v := (mu + lam * pow2 sig - x) / (sig * sqrt (Fin 2)) in
   Fin 0.5 * lam * exp u * erfc v)%f64.

Definition _cdf (x mu sig lam : pyfloat) : pyfloat :=
  (let u := lam * (x - mu) in
   let v := lam * sig in
   let phi1 := norm.cdf u (Fin 0) v in
   let phi2 := norm.cdf u (pow2 v) v in
   phi1 - phi2 * exp (- u + Fin 0.5 * pow2 v))%f64.

(** The public methods of scipy's rv_continuous with the default loc = 0 and
    scale = 1 on the support (-inf, inf): they consult _argcheck and return
    NaN where it fails or the argument is NaN; outside the open support cdf is
    0 on the left and 1 on the right. *)
Module rv_continuous.
Definition cdf (_argcheck : pyfloat -> pyfloat -> pyfloat -> bool)
    (_cdf : pyfloat -> pyfloat -> pyfloat -> pyfloat -> pyfloat)
    (x mu sig lam : pyfloat) : pyfloat :=
  if _argcheck mu sig lam then
    match x with
    | NaN => NaN
    | PosInf => Fin 1
    | NegInf => Fin 0
    | Fin _ => _cdf x mu sig lam
    end
  else NaN.

Definition pdf (_argcheck : pyfloat -> pyfloat -> pyfloat -> bool)
    (_pdf : pyfloat -> pyfloat -> pyfloat -> pyfloat -> pyfloat)
    (x mu sig lam : pyfloat) : pyfloat :=
  if _argcheck mu sig lam then
    if isnan x then NaN else _pdf x mu sig lam
  else NaN.
End rv_continuous.

(** The cdf and pdf methods of the instances EMG1, EMG2 and EMG3. *)
Definition cdf : pyfloat -> pyfloat -> pyfloat -> pyfloat -> pyfloat :=
  rv_continuous.cdf EMG_gen1._argcheck _cdf.
Definition pdf : pyfloat -> pyfloat -> pyfloat -> pyfloat -> pyfloat :=
  rv_continuous.pdf EMG_gen1._argcheck _pdf.

(** numpy.interp(q, xp, fp) over floats.  A NaN query gives NaN; a query that
    equals the left knot of its segment gives that knot's value without
    computing a slope.  The scan selects the first segment whose right knot
    exceeds q; numpy's binary search selects the same one whenever the knots
    up to it are at most q and the later ones exceed q, as on every
    non-decreasing xp.  On a table of finite values the interpolation formula
    is never NaN, so numpy's retry from the right knot is left out. *)
Fixpoint interp_from (q x0 : pyfloat) (y0 : R) (xp : list pyfloat) (fp : list R) : pyfloat :=
  match xp, fp with
  | x1 :: xp', y1 :: fp' =>
      if lt q x1 then
        if eqb x0 q then Fin y0
        else ((Fin y1 - Fin y0) / (x1 - x0) * (q - x0) + Fin y0)%f64
      else interp_from q x1 y1 xp' fp'
  | _, _ => Fin y0
  end.

Definition interp (q : pyfloat) (xp : list pyfloat) (fp : list R) : option pyfloat :=
  match xp, fp with
  | x0 :: xp', y0 :: fp' =>
      Some (if isnan q then NaN
            else if lt q x0 then Fin y0
            else interp_from q x0 y0 xp' fp')
  | _, _ => None
  end.

(** EMG_gen2._ppf, lines 160-166, with self.cdf as [cdf]: the two bounds
    line 164 passes to numpy.arange, then the table and the interpolation.
    numpy.arange raises on a bound that is not finite (None). *)
Definition table_start (mu sig lam : pyfloat) : pyfloat :=
  (let var := pow2 sig + Fin 1 / pow2 lam in
   mu - Fin 50 * sqrt var)%f64.

Definition table_stop (mu sig lam : pyfloat) : pyfloat :=
  (let var := pow2 sig + Fin 1 / pow2 lam in
   mu + Fin 50 * sqrt var)%f64.

Definition _ppf (cdf : pyfloat -> pyfloat -> pyfloat -> pyfloat -> pyfloat)
    (q mu sig lam : pyfloat) : option pyfloat :=
  match table_start mu sig lam, table_stop mu sig lam with
  | Fin start, Fin stop =>
      let x := arange start stop 0.01 in
      let y := map (fun xi => cdf (Fin xi) mu sig lam) x in
      interp q y x
  | _, _ => None
  end.

End F64.


Import EMG_gen1.

(** ** Monotonicity, integrals and a second-order bound *)

Lemma dl_incr (F f : R -> R) :
  (forall x, dl F x (f x)) -> (forall x, 0 <= f x) ->
  forall a b, a <= b -> F a <= F b.
Proof.
  intros HF Hf a b [Hab| ->]; [|lra].
  destruct (MVT_cor2 F f a b Hab (fun c _ => HF c)) as [c [Hc _]].
  specialize (Hf c). nra.
Qed.

Lemma dl_strict_incr (F f : R -> R) :
  (forall x, dl F x (f x)) -> (forall x, 0 < f x) ->
  forall a b, a < b -> F a < F b.
Proof.
  intros HF Hf a b Hab.
  destruct (MVT_cor2 F f a b Hab (fun c _ => HF c)) as [c [Hc _]].
  specialize (Hf c). nra.
Qed.

Lemma dl_constant (F : R -> R) :
  (forall x, dl F x 0) -> forall a b, F a = F b.
Proof.
  intros HF a b.
  assert (H1 : forall u v, u <= v -> F u <= F v).
  { apply dl_incr with (f := fun _ => 0); [exact HF | intros; lra]. }
  assert (H2 : forall u v, u <= v -> - F u <= - F v).
  { apply dl_incr with (f := fun _ => 0); [| intros; lra].
    intros x. dl_by. ring. }
  destruct (Rle_dec a b).
  - generalize (H1 a b r) (H2 a b r). lra.
  - assert (b <= a) by lra. generalize (H1 b a H) (H2 b a H). lra.
Qed.

Section IntegralFacts.
Variables (f g : R -> R).
Hypothesis (Hf : continuity f) (Hg : continuity g).

Lemma cint_FTC (F : R -> R) :
  (forall x, dl F x (f x)) -> forall a b, cint f Hf a b = F b - F a.
Proof.
  intros HF a b.
  assert (H : forall u v, cint f Hf a u - F u = cint f Hf a v - F v).
  { apply dl_constant. intros x. eapply dl_eq; [|apply dl_minus; [apply cint_deriv| apply HF]].
    ring. }
  specialize (H a b). rewrite cint_refl in H. lra.
Qed.

Lemma cint_ext (a b : R) :
  a <= b -> (forall x, a < x < b -> f x = g x) -> cint f Hf a b = cint g Hg a b.
Proof. intros Hab H. unfold cint. now apply RiemannInt_P18. Qed.

Lemma cint_le (a b : R) :
  a <= b -> (forall x, a < x < b -> f x <= g x) -> cint f Hf a b <= cint g Hg a b.
Proof. intros Hab H. unfold cint. now apply RiemannInt_P19. Qed.

Lemma cint_lin (l : R) (Hfg : continuity (fun x => f x + l * g x)) (a b : R) :
  cint (fun x => f x + l * g x) Hfg a b = cint f Hf a b + l * cint g Hg a b.
Proof. unfold cint. apply RiemannInt_P13. Qed.
End IntegralFacts.

Lemma cint_const (c : R) (Hc : continuity (fun _ => c)) (a b : R) :
  cint (fun _ => c) Hc a b = c * (b - a).
Proof. unfold cint. apply (RiemannInt_P15 (cont_RI (fun _ => c) Hc a b)). Qed.

Lemma const_cont (c : R) : continuity (fun _ : R => c).
Proof. intros x. apply (dl_continuity_pt _ x 0), dl_const. Qed.

Lemma cint_bounds (f : R -> R) (Hf : continuity f) (a b m M : R) :
  a <= b -> (forall x, a < x < b -> m <= f x <= M) ->
  m * (b - a) <= cint f Hf a b <= M * (b - a).
Proof.
  intros Hab H. split.
  - rewrite <- (cint_const m (const_cont m)). apply cint_le; [exact Hab|]. intros; now apply H.
  - rewrite <- (cint_const M (const_cont M)). apply cint_le; [exact Hab|]. intros; now apply H.
Qed.

Lemma second_order_bound (f f' f'' : R -> R) (x h M : R) :
  (forall c, dl f c (f' c)) -> (forall c, dl f' c (f'' c)) ->
  (forall c, Rmin x (x + h) <= c <= Rmax x (x + h) -> Rabs (f'' c) <= M) ->
  Rabs (f (x + h) - f x - h * f' x) <= M * (h * h).
Proof.
  intros H1 H2 HM.
  destruct (MVT_abs (fun y => f y - (y - x) * f' x) (fun y => f' y - f' x) x (x + h))
    as [c [Hc Hcb]].
  { intros c _. dl_by. ring. }
  destruct (MVT_abs f' f'' x c (fun c _ => H2 c)) as [c' [Hc' Hcb']].
  assert (Hin : Rmin x (x + h) <= c' <= Rmax x (x + h)).
  { revert Hcb Hcb'. unfold Rmin, Rmax.
    repeat match goal with |- context [Rle_dec ?a ?b] => destruct (Rle_dec a b) end; lra. }
  specialize (HM c' Hin).
  assert (Hh : Rabs (c - x) <= Rabs h).
  { revert Hcb. unfold Rmin, Rmax, Rabs.
    repeat match goal with |- context [Rle_dec ?a ?b] => destruct (Rle_dec a b) end;
    repeat match goal with |- context [Rcase_abs ?a] => destruct (Rcase_abs a) end; lra. }
  replace (f (x + h) - f x - h * f' x)
    with (f (x + h) - (x + h - x) * f' x - (f x - (x - x) * f' x)) by ring.
  rewrite Hc, Hc'. replace (x + h - x) with h by ring.
  replace (h * h) with (Rabs h * Rabs h).
  2:{ unfold Rabs; destruct (Rcase_abs h); ring. }
  assert (0 <= Rabs h) by apply Rabs_pos.
  assert (0 <= Rabs (c - x)) by apply Rabs_pos.
  assert (0 <= Rabs (f'' c')) by apply Rabs_pos.
  apply Rle_trans with (M * Rabs (c - x) * Rabs h).
  - apply Rmult_le_compat_r; [assumption|]. apply Rmult_le_compat_r; assumption.
  - assert (0 <= M) by lra. rewrite Rmult_assoc. apply Rmult_le_compat_l; [assumption|].
    apply Rmult_le_compat_r; assumption.
Qed.

(** ** Limits at infinity *)

Lemma lim_minf_alt (f : R -> R) (l : R) :
  lim_minf f l <-> (forall eps, 0 < eps -> exists M, forall x, x < M -> Rabs (f x - l) < eps).
Proof.
  unfold lim_minf, lim_pinf. split; intros H eps He; destruct (H eps He) as [M HM]; exists (- M);
    intros x Hx.
  - replace x with (- - x) by ring. apply HM. lra.
  - apply HM. lra.
Qed.

Lemma lim_pinf_ext (f g : R -> R) (l : R) (M0 : R) :
  (forall x, M0 < x -> f x = g x) -> lim_pinf f l -> lim_pinf g l.
Proof.
  intros E H eps He. destruct (H eps He) as [M HM]. exists (Rmax M M0). intros x Hx.
  rewrite <- E; [apply HM|]; generalize (Rmax_l M M0) (Rmax_r M M0); lra.
Qed.

Lemma lim_pinf_const (c : R) : lim_pinf (fun _ => c) c.
Proof. intros eps He. exists 0. intros. rewrite Rminus_diag, Rabs_R0. exact He. Qed.

Lemma lim_pinf_plus (f g : R -> R) (a b : R) :
  lim_pinf f a -> lim_pinf g b -> lim_pinf (fun x => f x + g x) (a + b).
Proof.
  intros Hf Hg eps He.
  destruct (Hf (eps / 2)) as [M1 H1]; [lra|]. destruct (Hg (eps / 2)) as [M2 H2]; [lra|].
  exists (Rmax M1 M2). intros x Hx.
  assert (M1 < x /\ M2 < x) as [Hx1 Hx2].
  { generalize (Rmax_l M1 M2) (Rmax_r M1 M2); lra. }
  specialize (H1 x Hx1). specialize (H2 x Hx2).
  replace (f x + g x - (a + b)) with ((f x - a) + (g x - b)) by ring.
  eapply Rle_lt_trans; [apply Rabs_triang|]. lra.
Qed.

Lemma lim_pinf_scal (f : R -> R) (c a : R) :
  lim_pinf f a -> lim_pinf (fun x => c * f x) (c * a).
Proof.
  intros Hf eps He.
  destruct (Hf (eps / (Rabs c + 1))) as [M HM].
  { apply Rdiv_lt_0_compat; [lra|]. generalize (Rabs_pos c); lra. }
  exists M. intros x Hx. specialize (HM x Hx).
  replace (c * f x - c * a) with (c * (f x - a)) by ring. rewrite Rabs_mult.
  assert (Hc := Rabs_pos c). assert (Hfx := Rabs_pos (f x - a)).
  apply Rle_lt_trans with (Rabs c * (eps / (Rabs c + 1))).
  - apply Rmult_le_compat_l; lra.
  - apply Rmult_lt_reg_r with (Rabs c + 1); [lra|].
    replace (Rabs c * (eps / (Rabs c + 1)) * (Rabs c + 1)) with (Rabs c * eps) by (field; lra).
    nra.
Qed.

Lemma lim_pinf_opp (f : R -> R) (a : R) :
  lim_pinf f a -> lim_pinf (fun x => - f x) (- a).
Proof.
  intros H. apply lim_pinf_ext with (f := fun x => (- 1) * f x) (M0 := 0).
  - intros; ring.
  - replace (- a) with ((- 1) * a) by ring. now apply lim_pinf_scal.
Qed.

Lemma lim_pinf_minus (f g : R -> R) (a b : R) :
  lim_pinf f a -> lim_pinf g b -> lim_pinf (fun x => f x - g x) (a - b).
Proof.
  intros Hf Hg. apply (lim_pinf_plus f (fun x => - g x) a (- b)); [assumption|].
  now apply lim_pinf_opp.
Qed.

Lemma lim_pinf_squeeze0 (f g : R -> R) (M0 : R) :
  (forall x, M0 < x -> Rabs (f x) <= g x) -> lim_pinf g 0 -> lim_pinf f 0.
Proof.
  intros B Hg eps He. destruct (Hg eps He) as [M HM]. exists (Rmax M M0). intros x Hx.
  assert (M < x /\ M0 < x) as [Hx1 Hx2].
  { generalize (Rmax_l M M0) (Rmax_r M M0); lra. }
  specialize (HM x Hx1). specialize (B x Hx2).
  rewrite Rminus_0_r in *. apply Rle_lt_trans with (g x); [exact B|].
  eapply Rle_lt_trans; [apply Rle_abs | exact HM].
Qed.


(** Composition with an increasing affine map. *)
Lemma lim_pinf_affine (f : R -> R) (l a b : R) :
  0 < a -> lim_pinf f l -> lim_pinf (fun x => f (a * x + b)) l.
Proof.
  intros Ha H eps He. destruct (H eps He) as [M HM]. exists ((M - b) / a).
  intros x Hx. apply HM.
  apply Rmult_lt_compat_r with (r := a) in Hx; [|exact Ha].
  replace ((M - b) / a * a) with (M - b) in Hx by (field; lra). lra.
Qed.

Lemma lim_minf_affine (f : R -> R) (l a b : R) :
  0 < a -> lim_minf f l -> lim_minf (fun x => f (a * x + b)) l.
Proof.
  unfold lim_minf. intros Ha H.
  apply lim_pinf_ext with (f := fun x => f (- (a * x + - b))) (M0 := 0).
  - intros; f_equal; ring.
  - now apply (lim_pinf_affine (fun y => f (- y))).
Qed.

Lemma lim_pinf_inv_id : lim_pinf (fun x => / x) 0.
Proof.
  intros eps He. exists (/ eps). intros x Hx.
  assert (0 < / eps) by now apply Rinv_0_lt_compat.
  rewrite Rminus_0_r, Rabs_pos_eq by (left; apply Rinv_0_lt_compat; lra).
  rewrite <- (Rinv_inv eps). apply Rinv_lt_contravar; [nra|lra].
Qed.

(** ** The Gaussian integral *)

Lemma exp_le_1 (z : R) : z <= 0 -> exp z <= 1.
Proof.
  intros [Hz| ->]; [|rewrite exp_0; lra].
  left. rewrite <- exp_0. now apply exp_increasing.
Qed.

Lemma gauss_pos (x : R) : 0 < gauss x.
Proof. apply exp_pos. Qed.


Lemma Gint_dl (x : R) : dl Gint x (gauss x).
Proof. apply cint_deriv. Qed.

Lemma Gint_0 : Gint 0 = 0.
Proof. apply cint_refl. Qed.

(** The value of the Gaussian integral, which makes erf tend to 1.  With
    [Gint x] the integral of exp(-t^2) over [0,x] and [Hint x] the integral
    over [0,1] of exp(-x^2 (1+t^2)) / (1+t^2), the sum Gint^2 + Hint has
    derivative 0 and value pi/4 at 0, while 0 <= Hint x <= exp(-x^2). *)
Definition kern (x t : R) : R := exp (- (x * x * (1 + t * t))) / (1 + t * t).
Definition dkern (x t : R) : R := - 2 * x * exp (- (x * x * (1 + t * t))).
Definition d2kern (x t : R) : R :=
  (- 2 + 4 * (1 + t * t) * (x * x)) * exp (- (x * x * (1 + t * t))).

Lemma kern_dl (t x : R) : dl (fun y => kern y t) x (dkern x t).
Proof.
  unfold kern, dkern, Rdiv. dl_by. field. nra.
Qed.

Lemma dkern_dl (t x : R) : dl (fun y => dkern y t) x (d2kern x t).
Proof. unfold dkern, d2kern. dl_by. ring. Qed.

Lemma kern_cont (x : R) : continuity (kern x).
Proof.
  intros t. unfold kern. eapply dl_continuity_pt.
  apply dl_div; [nra | dl_auto | dl_auto].
Qed.

Lemma dkern_cont (x : R) : continuity (dkern x).
Proof. intros t. unfold dkern. eapply dl_continuity_pt. dl_auto. Qed.

Definition Hint (x : R) : R := cint (kern x) (kern_cont x) 0 1.
Definition dHint (x : R) : R := cint (dkern x) (dkern_cont x) 0 1.

Lemma d2kern_bound (x c t : R) :
  Rabs (c - x) <= 1 -> Rabs (d2kern c t) <= 2 + 16 * (Rabs x + 1) * (Rabs x + 1) * (1 + t * t).
Proof.
  intros Hc. unfold d2kern. rewrite Rabs_mult.
  assert (He : 0 < exp (- (c * c * (1 + t * t))) <= 1).
  { split; [apply exp_pos|]. apply exp_le_1. nra. }
  rewrite (Rabs_pos_eq (exp _)) by lra.
  assert (Hcc : c * c <= (Rabs x + 1) * (Rabs x + 1)).
  { revert Hc. unfold Rabs.
    destruct (Rcase_abs (c - x)); destruct (Rcase_abs x); intros; nra. }
  assert (Ha : Rabs (- 2 + 4 * (1 + t * t) * (c * c))
               <= 2 + 16 * (Rabs x + 1) * (Rabs x + 1) * (1 + t * t)).
  { unfold Rabs at 1. destruct (Rcase_abs _); nra. }
  assert (0 <= Rabs (- 2 + 4 * (1 + t * t) * (c * c))) by apply Rabs_pos.
  nra.
Qed.

Lemma Rabs_le_between (x a : R) : Rabs x <= a -> - a <= x <= a.
Proof. unfold Rabs. destruct (Rcase_abs x); lra. Qed.

Lemma cont_lin (f g : R -> R) (l : R) :
  continuity f -> continuity g -> continuity (fun x => f x + l * g x).
Proof.
  intros Hf Hg x.
  apply (continuity_pt_plus f (fun y => l * g y)); [apply Hf|].
  apply (continuity_pt_mult (fun _ => l) g); [apply const_cont | apply Hg].
Qed.

(** Differentiation under the integral sign, from a second-order bound that is
    uniform in the integration variable. *)
Lemma Hint_diff_bound (x h : R) :
  Rabs h <= 1 ->
  Rabs (Hint (x + h) - Hint x - h * dHint x)
    <= (2 + 32 * (Rabs x + 1) * (Rabs x + 1)) * (h * h).
Proof.
  intros Hh1. set (M := 2 + 32 * (Rabs x + 1) * (Rabs x + 1)).
  pose (r1 := fun t => kern (x + h) t + (- 1) * kern x t).
  assert (Hr1 : continuity r1) by (apply cont_lin; apply kern_cont).
  pose (r := fun t => r1 t + (- h) * dkern x t).
  assert (Hr : continuity r) by (apply cont_lin; [exact Hr1 | apply dkern_cont]).
  assert (E : Hint (x + h) - Hint x - h * dHint x = cint r Hr 0 1).
  { unfold r. rewrite (cint_lin r1 (dkern x) Hr1 (dkern_cont x)).
    unfold r1 in *. rewrite (cint_lin (kern (x + h)) (kern x) (kern_cont _) (kern_cont _)).
    unfold Hint, dHint. ring. }
  rewrite E.
  assert (B : forall t, 0 < t < 1 -> - (M * (h * h)) <= r t <= M * (h * h)).
  { intros t Ht.
    assert (Hb := second_order_bound (fun y => kern y t) (fun y => dkern y t)
                    (fun y => d2kern y t) x h M (kern_dl t) (dkern_dl t)).
    cbv beta in Hb. apply Rabs_le_between. unfold r, r1.
    replace (kern (x + h) t + -1 * kern x t + - h * dkern x t)
      with (kern (x + h) t - kern x t - h * dkern x t) by ring.
    apply Hb. intros c Hc.
    apply Rle_trans with (2 + 16 * (Rabs x + 1) * (Rabs x + 1) * (1 + t * t)).
    - apply d2kern_bound. revert Hc Hh1. unfold Rmin, Rmax, Rabs.
      repeat match goal with |- context [Rle_dec ?a ?b] => destruct (Rle_dec a b) end;
      repeat match goal with |- context [Rcase_abs ?a] => destruct (Rcase_abs a) end; lra.
    - unfold M. clear - Ht. generalize (Rabs_pos x). intros Hx.
      assert (HA : 0 <= (Rabs x + 1) * (Rabs x + 1)) by (apply Rmult_le_pos; lra).
      assert (Htt : t * t <= 1) by nra.
      replace (16 * (Rabs x + 1) * (Rabs x + 1) * (1 + t * t))
        with (16 * ((Rabs x + 1) * (Rabs x + 1)) * (1 + t * t)) by ring.
      replace (32 * (Rabs x + 1) * (Rabs x + 1))
        with (32 * ((Rabs x + 1) * (Rabs x + 1))) by ring.
      revert HA. generalize ((Rabs x + 1) * (Rabs x + 1)). intros A HA. nra. }
  generalize (cint_bounds r Hr 0 1 _ _ Rle_0_1 B). intros [B1 B2].
  apply Rabs_le. lra.
Qed.

Lemma Hint_dl (x : R) : dl Hint x (dHint x).
Proof.
  intros eps Heps. set (M := 2 + 32 * (Rabs x + 1) * (Rabs x + 1)).
  assert (HM : 0 < M). { unfold M. generalize (Rabs_pos x). nra. }
  assert (Hd : 0 < Rmin 1 (eps / (M + 1))).
  { apply Rmin_glb_lt; [lra|]. apply Rdiv_lt_0_compat; lra. }
  exists (mkposreal _ Hd). simpl. intros h Hh0 Hh.
  assert (Hh1 : Rabs h <= 1). { generalize (Rmin_l 1 (eps / (M + 1))). lra. }
  assert (Hh2 : Rabs h < eps / (M + 1)). { generalize (Rmin_r 1 (eps / (M + 1))). lra. }
  generalize (Hint_diff_bound x h Hh1). fold M. intros B.
  replace ((Hint (x + h) - Hint x) / h - dHint x)
    with ((Hint (x + h) - Hint x - h * dHint x) / h) by (field; exact Hh0).
  unfold Rdiv. rewrite Rabs_mult, Rabs_inv.
  assert (Hah : 0 < Rabs h) by now apply Rabs_pos_lt.
  apply Rle_lt_trans with (M * Rabs h).
  - apply Rmult_le_reg_r with (Rabs h); [exact Hah|].
    rewrite Rmult_assoc, Rinv_l by lra. rewrite Rmult_1_r.
    replace (M * Rabs h * Rabs h) with (M * (h * h)); [exact B|].
    rewrite Rmult_assoc. f_equal. unfold Rabs. destruct (Rcase_abs h); ring.
  - apply Rlt_trans with (M * (eps / (M + 1))).
    + apply Rmult_lt_compat_l; assumption.
    + apply Rmult_lt_reg_r with (M + 1); [lra|].
      replace (M * (eps / (M + 1)) * (M + 1)) with (M * eps) by (field; lra). nra.
Qed.

(** The derivative of Hint in closed form: the substitution s = x * t. *)
Lemma dHint_eq (x : R) : dHint x = - 2 * gauss x * Gint x.
Proof.
  unfold dHint.
  pose (g := fun t => x * gauss (x * t)).
  assert (Hg : continuity g).
  { intros t. unfold g, gauss. eapply dl_continuity_pt. dl_auto. }
  assert (E1 : cint g Hg 0 1 = Gint x).
  { rewrite (cint_FTC g Hg (fun t => Gint (x * t))).
    - rewrite Rmult_1_r, Rmult_0_r, Gint_0. ring.
    - intros t. unfold g. eapply dl_eq; [|apply (dl_comp (fun t => x * t) Gint)].
      2:{ dl_by. reflexivity. }
      2:{ apply Gint_dl. } ring. }
  pose (z := fun _ : R => 0).
  assert (E2 : cint (dkern x) (dkern_cont x) 0 1
               = cint (fun t => z t + (- 2 * gauss x) * g t) (cont_lin z g _ (const_cont 0) Hg) 0 1).
  { apply cint_ext; [lra|]. intros t _. unfold dkern, z, g, gauss.
    replace (- (x * x * (1 + t * t))) with (- (x * x) + - (x * t * (x * t))) by ring.
    rewrite exp_plus. ring. }
  rewrite E2, (cint_lin z g (const_cont 0) Hg), E1.
  unfold z. rewrite cint_const. ring.
Qed.

Lemma kern_bounds (x t : R) : 0 <= kern x t <= gauss x.
Proof.
  unfold kern, gauss.
  assert (H1 : 0 < / (1 + t * t) <= 1).
  { split; [apply Rinv_0_lt_compat; nra|].
    apply Rmult_le_reg_r with (1 + t * t); [nra|]. rewrite Rinv_l by nra. nra. }
  assert (H2 : 0 < exp (- (x * x * (1 + t * t))) <= exp (- (x * x))).
  { split; [apply exp_pos|].
    replace (- (x * x * (1 + t * t))) with (- (x * x) + - (x * t * (x * t))) by ring.
    rewrite exp_plus. generalize (exp_le_1 (- (x * t * (x * t)))) (exp_pos (- (x * x))).
    intros. assert (exp (- (x * t * (x * t))) <= 1) by (apply H; nra). nra. }
  unfold Rdiv. nra.
Qed.

Lemma Hint_bounds (x : R) : 0 <= Hint x <= gauss x.
Proof.
  generalize (cint_bounds (kern x) (kern_cont x) 0 1 0 (gauss x) Rle_0_1
                (fun t _ => kern_bounds x t)). unfold Hint. lra.
Qed.

Lemma Hint_0 : Hint 0 = PI / 4.
Proof.
  unfold Hint.
  rewrite (cint_FTC (kern 0) (kern_cont 0) atan).
  - rewrite atan_1, atan_0. ring.
  - intros t. eapply dl_eq; [|apply derivable_pt_lim_atan].
    unfold kern, Rsqr. replace (- (0 * 0 * (1 + t * t))) with 0 by ring.
    rewrite exp_0. field. nra.
Qed.

Theorem gauss_identity (x : R) : Gint x * Gint x + Hint x = PI / 4.
Proof.
  rewrite <- Hint_0.
  rewrite (dl_constant (fun y => Gint y * Gint y + Hint y)) with (b := 0).
  - rewrite Gint_0. ring.
  - intros y. eapply dl_eq; [|apply dl_plus; [apply dl_mult; apply Gint_dl | apply Hint_dl]].
    rewrite dHint_eq. ring.
Qed.

(** ** The error function *)

Lemma sqrt_PI_pos : 0 < sqrt PI.
Proof. apply sqrt_lt_R0, PI_RGT_0. Qed.

Lemma sqrt_PI_sq : sqrt PI * sqrt PI = PI.
Proof. apply sqrt_sqrt. left; apply PI_RGT_0. Qed.

Lemma erf_dl (x : R) : dl erf x (2 / sqrt PI * gauss x).
Proof.
  unfold erf. eapply dl_eq; [|apply dl_mult; [apply dl_const | apply Gint_dl]].
  cbv beta. ring.
Qed.

Lemma erfc_dl (x : R) : dl erfc x (- (2 / sqrt PI * gauss x)).
Proof.
  unfold erfc. eapply dl_eq; [|apply dl_minus; [apply dl_const | apply erf_dl]].
  cbv beta. ring.
Qed.

Lemma erf_0 : erf 0 = 0.
Proof. unfold erf. rewrite Gint_0. ring. Qed.

Lemma two_over_sqrt_PI_pos : 0 < 2 / sqrt PI.
Proof. apply Rdiv_lt_0_compat; [lra | apply sqrt_PI_pos]. Qed.

Lemma erf_strict_incr (a b : R) : a < b -> erf a < erf b.
Proof.
  apply dl_strict_incr with (f := fun x => 2 / sqrt PI * gauss x).
  - apply erf_dl.
  - intros x. apply Rmult_lt_0_compat; [apply two_over_sqrt_PI_pos | apply gauss_pos].
Qed.

Lemma erf_odd (x : R) : erf (- x) = - erf x.
Proof.
  assert (H : forall u v, erf u + erf (- u) = erf v + erf (- v)).
  { apply dl_constant. intros y.
    eapply dl_eq; [|apply dl_plus; [apply erf_dl|]].
    2:{ apply (dl_comp (fun y => - y) erf); [|apply erf_dl]. dl_by. reflexivity. }
    unfold gauss. replace (- y * - y) with (y * y) by ring. ring. }
  specialize (H x 0). replace (- 0) with 0 in H by ring. rewrite erf_0 in H. lra.
Qed.

Lemma erf_sq (x : R) : erf x * erf x = 1 - 4 / PI * Hint x.
Proof.
  unfold erf. generalize (gauss_identity x) sqrt_PI_sq sqrt_PI_pos PI_RGT_0. intros E S P1 P2.
  replace (2 / sqrt PI * Gint x * (2 / sqrt PI * Gint x))
    with (4 / (sqrt PI * sqrt PI) * (Gint x * Gint x)) by (field; lra).
  rewrite S. replace (Gint x * Gint x) with (PI / 4 - Hint x) by lra. field. lra.
Qed.

Lemma erf_nonneg (x : R) : 0 <= x -> 0 <= erf x.
Proof.
  intros [Hx| <-]; [|rewrite erf_0; lra].
  rewrite <- erf_0. left. now apply erf_strict_incr.
Qed.

Lemma erf_le_1 (x : R) : erf x <= 1.
Proof.
  destruct (Rle_dec 0 x) as [Hx|Hx].
  - generalize (erf_sq x) (erf_nonneg x Hx) (Hint_bounds x) PI_RGT_0. intros E N [B _] P.
    assert (0 <= 4 / PI * Hint x).
    { apply Rmult_le_pos; [|exact B]. apply Rlt_le, Rdiv_lt_0_compat; lra. }
    nra.
  - assert (erf x < erf 0) by (apply erf_strict_incr; lra). rewrite erf_0 in *. lra.
Qed.

Lemma erf_lt_1 (x : R) : erf x < 1.
Proof.
  apply Rlt_le_trans with (erf (x + 1)); [apply erf_strict_incr; lra | apply erf_le_1].
Qed.

Lemma erf_gt_m1 (x : R) : - 1 < erf x.
Proof. generalize (erf_lt_1 (- x)). rewrite erf_odd. lra. Qed.

Lemma erfc_pos (x : R) : 0 < erfc x.
Proof. unfold erfc. generalize (erf_lt_1 x). lra. Qed.

Lemma erfc_lt_2 (x : R) : erfc x < 2.
Proof. unfold erfc. generalize (erf_gt_m1 x). lra. Qed.

Lemma erfc_opp (x : R) : erfc (- x) = 2 - erfc x.
Proof. unfold erfc. rewrite erf_odd. ring. Qed.

(** Tail bound: for non-negative arguments erfc decays like the Gaussian. *)
Lemma erfc_tail (x : R) : 0 <= x -> erfc x <= 4 / PI * gauss x.
Proof.
  intros Hx. unfold erfc.
  generalize (erf_sq x) (erf_nonneg x Hx) (erf_le_1 x) (Hint_bounds x) PI_RGT_0.
  intros E N L [B1 B2] P.
  assert (H4 : 0 < 4 / PI) by (apply Rdiv_lt_0_compat; lra).
  assert (4 / PI * Hint x <= 4 / PI * gauss x) by (apply Rmult_le_compat_l; lra).
  nra.
Qed.

Lemma four_over_PI_lt_2 : 4 / PI < 2.
Proof.
  generalize PI_RGT_0 PI2_3_2. unfold PI2. intros P H.
  apply Rmult_lt_reg_r with PI; [lra|].
  replace (4 / PI * PI) with 4 by (field; lra). lra.
Qed.

Lemma erfc_tail2 (x : R) : 0 <= x -> erfc x <= 2 * gauss x.
Proof.
  intros Hx. generalize (erfc_tail x Hx) four_over_PI_lt_2 (gauss_pos x). nra.
Qed.

Lemma gauss_le_inv (x : R) : gauss x <= / (1 + x * x).
Proof.
  unfold gauss. rewrite exp_Ropp.
  apply Rinv_le_contravar; [nra|].
  destruct (Req_dec (x * x) 0) as [->|H].
  - rewrite exp_0; lra.
  - left. apply exp_ineq1. nra.
Qed.

Lemma gauss_lim_pinf : lim_pinf gauss 0.
Proof.
  apply lim_pinf_squeeze0 with (g := fun x => / x) (M0 := 1); [|apply lim_pinf_inv_id].
  intros x Hx. rewrite Rabs_pos_eq by (left; apply gauss_pos).
  eapply Rle_trans; [apply gauss_le_inv|]. apply Rinv_le_contravar; nra.
Qed.

Lemma erfc_lim_pinf : lim_pinf erfc 0.
Proof.
  apply lim_pinf_squeeze0 with (g := fun x => 2 * gauss x) (M0 := 0).
  - intros x Hx. rewrite Rabs_pos_eq by (left; apply erfc_pos). apply erfc_tail2. lra.
  - replace 0 with (2 * 0) by ring. apply lim_pinf_scal, gauss_lim_pinf.
Qed.

Lemma erfc_lim_minf : lim_minf erfc 2.
Proof.
  unfold lim_minf.
  apply lim_pinf_ext with (f := fun x => 2 - erfc x) (M0 := 0).
  - intros; now rewrite erfc_opp.
  - generalize (lim_pinf_minus (fun _ => 2) erfc 2 0 (lim_pinf_const 2) erfc_lim_pinf).
    now rewrite Rminus_0_r.
Qed.

(** ** The normal distribution functions *)

Lemma half_eq : 0.5 = / 2.
Proof. lra. Qed.

Lemma sqrt2_pos : 0 < sqrt 2.
Proof. apply sqrt_lt_R0; lra. Qed.

Lemma sqrt2_sq : sqrt 2 * sqrt 2 = 2.
Proof. apply sqrt_sqrt; lra. Qed.

Lemma inv_sqrt2_sq : / sqrt 2 * / sqrt 2 = / 2.
Proof. rewrite <- Rinv_mult, sqrt2_sq. reflexivity. Qed.

Lemma dl_erf (f : R -> R) (x a : R) :
  dl f x a -> dl (fun y => erf (f y)) x (2 / sqrt PI * gauss (f x) * a).
Proof. intros; apply dl_comp; [assumption | apply erf_dl]. Qed.

Lemma sqrt_2PI : sqrt (2 * PI) = sqrt 2 * sqrt PI.
Proof. apply sqrt_mult; [lra | left; apply PI_RGT_0]. Qed.

Lemma phi_pos (z : R) : 0 < phi z.
Proof.
  unfold phi. apply Rdiv_lt_0_compat; [apply exp_pos|].
  apply sqrt_lt_R0. generalize PI_RGT_0; lra.
Qed.

Lemma ndtr_dl (z : R) : dl ndtr z (phi z).
Proof.
  unfold ndtr, phi, Rdiv.
  eapply dl_eq; [|apply dl_mult; [apply dl_const|apply dl_plus; [apply dl_const|]]].
  2:{ apply dl_erf. dl_auto. }
  cbv beta. unfold gauss. rewrite half_eq, sqrt_2PI.
  replace (- (z * / sqrt 2 * (z * / sqrt 2))) with (- (z * z) * (/ sqrt 2 * / sqrt 2)) by ring.
  rewrite inv_sqrt2_sq.
  field. split; [apply Rgt_not_eq, sqrt_PI_pos | apply Rgt_not_eq, sqrt2_pos].
Qed.

Lemma ndtr_erfc (z : R) : ndtr z = 0.5 * erfc (- z / sqrt 2).
Proof.
  unfold ndtr, erfc. replace (- z / sqrt 2) with (- (z / sqrt 2)) by (unfold Rdiv; ring).
  rewrite erf_odd. ring.
Qed.

Lemma ndtr_bounds (z : R) : 0 < ndtr z < 1.
Proof.
  rewrite ndtr_erfc, half_eq.
  generalize (erfc_pos (- z / sqrt 2)) (erfc_lt_2 (- z / sqrt 2)). lra.
Qed.

Lemma ndtr_tail (z : R) : z <= 0 -> ndtr z <= exp (- (z * z) / 2).
Proof.
  intros Hz. rewrite ndtr_erfc, half_eq.
  assert (H : 0 <= - z / sqrt 2).
  { apply Rmult_le_pos; [lra|]. left; apply Rinv_0_lt_compat, sqrt2_pos. }
  generalize (erfc_tail2 _ H). unfold gauss.
  replace (- (- z / sqrt 2 * (- z / sqrt 2))) with (- (z * z) * (/ sqrt 2 * / sqrt 2))
    by (unfold Rdiv; ring).
  rewrite inv_sqrt2_sq. unfold Rdiv. lra.
Qed.


(** ** Decay of polynomials against exponentials *)

Lemma lim_pinf_scal0 (f : R -> R) (c : R) :
  lim_pinf f 0 -> lim_pinf (fun x => c * f x) 0.
Proof. intros H. generalize (lim_pinf_scal f c 0 H). now rewrite Rmult_0_r. Qed.

Lemma exp_mult_nat (m : nat) (y : R) : exp (INR m * y) = exp y ^ m.
Proof.
  induction m as [|m IH].
  - simpl. rewrite Rmult_0_l. apply exp_0.
  - rewrite S_INR, Rmult_plus_distr_r, Rmult_1_l, exp_plus, IH. simpl. ring.
Qed.

Lemma pow_le_exp (n : nat) (x : R) : 0 <= x -> x ^ n <= INR n ^ n * exp x.
Proof.
  intros Hx. destruct n as [|k].
  - simpl. generalize (exp_ineq1_le x). lra.
  - set (n := S k). assert (Hn : 0 < INR n) by (apply lt_0_INR; unfold n; lia).
    replace (exp x) with (exp (x / INR n) ^ n).
    2:{ rewrite <- exp_mult_nat. f_equal. field. lra. }
    rewrite <- Rpow_mult_distr. apply pow_incr. split; [exact Hx|].
    generalize (exp_ineq1_le (x / INR n)). intros H.
    assert (0 <= x / INR n) by (apply Rmult_le_pos; [lra | left; now apply Rinv_0_lt_compat]).
    replace x with (INR n * (x / INR n)) at 1 by (field; lra).
    apply Rmult_le_compat_l; lra.
Qed.

Lemma lim_pow_exp (n : nat) : lim_pinf (fun x => x ^ n * exp (- x)) 0.
Proof.
  apply lim_pinf_squeeze0 with (g := fun x => INR (S n) ^ S n * / x) (M0 := 0).
  - intros x Hx. rewrite Rabs_pos_eq.
    2:{ apply Rmult_le_pos; [apply pow_le; lra | left; apply exp_pos]. }
    generalize (pow_le_exp (S n) x (Rlt_le _ _ Hx)). intros H.
    rewrite exp_Ropp.
    apply Rmult_le_reg_r with (x * exp x).
    { apply Rmult_lt_0_compat; [lra | apply exp_pos]. }
    replace (x ^ n * / exp x * (x * exp x)) with (x ^ S n)
      by (simpl; field; apply Rgt_not_eq, exp_pos).
    replace (INR (S n) ^ S n * / x * (x * exp x)) with (INR (S n) ^ S n * exp x)
      by (field; lra).
    exact H.
  - apply lim_pinf_scal0, lim_pinf_inv_id.
Qed.

Lemma lim_pow_exp_lin (n : nat) (c k : R) :
  0 < c -> lim_pinf (fun z => z ^ n * exp (- (c * z) + k)) 0.
Proof.
  intros Hc.
  apply lim_pinf_ext with
    (f := fun z => (exp k * / c ^ n) * ((c * z + 0) ^ n * exp (- (c * z + 0)))) (M0 := 0).
  - intros z _. rewrite exp_plus, !Rplus_0_r, Rpow_mult_distr. field.
    apply pow_nonzero. lra.
  - apply lim_pinf_scal0.
    apply (lim_pinf_affine (fun x => x ^ n * exp (- x)) 0 c 0 Hc (lim_pow_exp n)).
Qed.

Lemma lim_pow_gauss (n : nat) : lim_pinf (fun z => z ^ n * exp (- (z * z) / 2)) 0.
Proof.
  apply lim_pinf_squeeze0 with (g := fun z => z ^ n * exp (- z)) (M0 := 2); [|apply lim_pow_exp].
  intros z Hz. rewrite Rabs_pos_eq.
  2:{ apply Rmult_le_pos; [apply pow_le; lra | left; apply exp_pos]. }
  apply Rmult_le_compat_l; [apply pow_le; lra|].
  destruct (Rle_lt_or_eq_dec (- (z * z) / 2) (- z)) as [H|H]; [nra| |rewrite H; lra].
  left. now apply exp_increasing.
Qed.

Lemma lim_pinf_abs0 (f : R -> R) : lim_pinf (fun x => Rabs (f x)) 0 -> lim_pinf f 0.
Proof.
  intros H. apply lim_pinf_squeeze0 with (g := fun x => Rabs (f x)) (M0 := 0); [|exact H].
  intros; lra.
Qed.

Lemma lim_pow_gauss_minf (n : nat) : lim_minf (fun z => z ^ n * exp (- (z * z) / 2)) 0.
Proof.
  unfold lim_minf.
  apply lim_pinf_squeeze0 with (g := fun z => z ^ n * exp (- (z * z) / 2)) (M0 := 0);
    [|apply lim_pow_gauss].
  intros z Hz. rewrite Rabs_mult, <- RPow_abs, Rabs_Ropp, (Rabs_pos_eq z) by lra.
  rewrite Rabs_pos_eq by (left; apply exp_pos).
  replace (- z * - z) with (z * z) by ring. lra.
Qed.

(** Standardised EMG density: Normal(0,1) plus Exponential(rate c). *)
Definition semg (c z : R) : R := c * ndtr (z - c) * exp (- (c * z) + c * c / 2).

Section StandardEMG.
Variable c : R.
Hypothesis c_pos : 0 < c.

Lemma semg_pos (z : R) : 0 < semg c z.
Proof.
  unfold semg. apply Rmult_lt_0_compat; [apply Rmult_lt_0_compat|apply exp_pos].
  - exact c_pos.
  - apply ndtr_bounds.
Qed.

Lemma semg_le_right (z : R) : semg c z <= c * exp (- (c * z) + c * c / 2).
Proof.
  unfold semg. generalize (ndtr_bounds (z - c)) (exp_pos (- (c * z) + c * c / 2)).
  intros [_ B] E. apply Rmult_le_compat_r; [lra|].
  apply Rle_trans with (c * 1); [apply Rmult_le_compat_l; lra | lra].
Qed.

Lemma semg_le_left (z : R) : z <= c -> semg c z <= c * exp (- (z * z) / 2).
Proof.
  intros Hz. unfold semg.
  assert (H := ndtr_tail (z - c)). 
  replace (exp (- (z * z) / 2))
    with (exp (- ((z - c) * (z - c)) / 2) * exp (- (c * z) + c * c / 2)).
  2:{ rewrite <- exp_plus. f_equal. field. }
  generalize (exp_pos (- (c * z) + c * c / 2)). intros He.
  rewrite Rmult_assoc. apply Rmult_le_compat_l; [lra|].
  apply Rmult_le_compat_r; [lra|]. apply H. lra.
Qed.

Lemma phi_shift (z : R) : phi (z - c) * exp (- (c * z) + c * c / 2) = phi z.
Proof.
  unfold phi, Rdiv.
  rewrite (Rmult_comm (exp _) (/ _)), Rmult_assoc, <- exp_plus, Rmult_comm.
  f_equal. f_equal. field.
Qed.

Lemma semg_dl (z : R) : dl (semg c) z (c * (phi z - semg c z)).
Proof.
  unfold semg. rewrite <- (phi_shift z). unfold Rdiv.
  eapply dl_eq; [|apply dl_mult; [apply dl_mult; [apply dl_const|] |]].
  2:{ apply (dl_comp (fun y => y - c) ndtr); [|apply ndtr_dl]. dl_by. reflexivity. }
  2:{ dl_by. reflexivity. }
  cbv beta. ring.
Qed.

Lemma semg_pow_lim_pinf (n : nat) : lim_pinf (fun z => z ^ n * semg c z) 0.
Proof.
  apply lim_pinf_squeeze0 with
    (g := fun z => c * (z ^ n * exp (- (c * z) + c * c / 2))) (M0 := 0).
  - intros z Hz. rewrite Rabs_pos_eq.
    2:{ apply Rmult_le_pos; [apply pow_le; lra | left; apply semg_pos]. }
    generalize (semg_le_right z) (pow_le z n (Rlt_le _ _ Hz)). nra.
  - apply lim_pinf_scal0, lim_pow_exp_lin, c_pos.
Qed.

Lemma semg_pow_lim_minf (n : nat) : lim_minf (fun z => z ^ n * semg c z) 0.
Proof.
  generalize (lim_pow_gauss_minf n). unfold lim_minf. intros H.
  apply lim_pinf_squeeze0 with
    (g := fun z => c * Rabs ((- z) ^ n * exp (- (- z * - z) / 2))) (M0 := 0).
  - intros z Hz. rewrite !Rabs_mult.
    rewrite (Rabs_pos_eq (semg _ _)) by (left; apply semg_pos).
    rewrite (Rabs_pos_eq (exp _)) by (left; apply exp_pos).
    generalize (semg_le_left (- z)) (Rabs_pos ((- z) ^ n)). intros B P.
    assert (semg c (- z) <= c * exp (- (- z * - z) / 2)) by (apply B; lra).
    nra.
  - apply lim_pinf_scal0.
    intros eps He. destruct (H eps He) as [M HM]. exists M. intros x Hx.
    specialize (HM x Hx). rewrite Rminus_0_r in *. now rewrite Rabs_Rabsolu.
Qed.
End StandardEMG.

(** ** Moments of the standardised density *)

Lemma ni_ext (f g : R -> R) (I : R) :
  (forall x, f x = g x) -> newton_integral f I -> newton_integral g I.
Proof.
  intros E [F [HF [H1 H2]]]. exists F. repeat split; try assumption.
  intros x. rewrite <- E. apply HF.
Qed.


Lemma ni_scal (f : R -> R) (k I : R) :
  newton_integral f I -> newton_integral (fun x => k * f x) (k * I).
Proof.
  intros [F [HF [F1 F2]]]. exists (fun x => k * F x). repeat split.
  - intros x. eapply dl_eq; [|apply dl_mult; [apply dl_const | apply HF]]. cbv beta. ring.
  - unfold lim_minf in *. apply (lim_pinf_scal0 (fun x => F (- x))). assumption.
  - now apply lim_pinf_scal.
Qed.

Lemma ni_affine (f : R -> R) (a b I : R) :
  0 < a -> newton_integral f I -> newton_integral (fun x => a * f (a * x + b)) I.
Proof.
  intros Ha [F [HF [F1 F2]]]. exists (fun x => F (a * x + b)). repeat split.
  - intros x. eapply dl_eq; [|apply (dl_comp (fun y => a * y + b) F); [|apply HF]].
    2:{ dl_by. reflexivity. }
    cbv beta. ring.
  - now apply lim_minf_affine.
  - now apply lim_pinf_affine.
Qed.

Lemma dl_pow (n : nat) (x : R) : dl (fun y => y ^ S n) x (INR (S n) * x ^ n).
Proof. apply (derivable_pt_lim_pow x (S n)). Qed.

Lemma phi_dl (z : R) : dl phi z (- z * phi z).
Proof. unfold phi, Rdiv. dl_by. field. apply Rgt_not_eq, sqrt_lt_R0. generalize PI_RGT_0; lra. Qed.

Lemma ndtr_lim_pinf : lim_pinf ndtr 1.
Proof.
  assert (Ha : 0 < / sqrt 2) by apply Rinv_0_lt_compat, sqrt2_pos.
  generalize (lim_pinf_scal _ 0.5 _
                (lim_pinf_affine (fun x => erfc (- x)) 2 (/ sqrt 2) 0 Ha erfc_lim_minf)).
  replace (0.5 * 2) with 1 by lra.
  apply lim_pinf_ext with (M0 := 0). intros z _. rewrite ndtr_erfc. f_equal. f_equal.
  unfold Rdiv. ring.
Qed.

Lemma ndtr_lim_minf : lim_minf ndtr 0.
Proof.
  assert (Ha : 0 < / sqrt 2) by apply Rinv_0_lt_compat, sqrt2_pos.
  generalize (lim_pinf_scal0 _ 0.5
                (lim_pinf_affine erfc 0 (/ sqrt 2) 0 Ha erfc_lim_pinf)).
  apply lim_pinf_ext with (M0 := 0). intros z _. rewrite ndtr_erfc. f_equal. f_equal.
  unfold Rdiv. ring.
Qed.

Lemma phi_pow_lim_pinf (n : nat) : lim_pinf (fun z => z ^ n * phi z) 0.
Proof.
  generalize (lim_pinf_scal0 _ (/ sqrt (2 * PI)) (lim_pow_gauss n)).
  apply lim_pinf_ext with (M0 := 0). intros z _. unfold phi, Rdiv. ring.
Qed.

Lemma phi_pow_lim_minf (n : nat) : lim_minf (fun z => z ^ n * phi z) 0.
Proof.
  generalize (lim_pinf_scal0 _ (/ sqrt (2 * PI)) (lim_pow_gauss_minf n)).
  apply lim_pinf_ext with (M0 := 0). intros z _. unfold phi, Rdiv. ring.
Qed.

(** Antiderivatives of z^n * phi z and the Gaussian moments. *)
Fixpoint gauss_prim (n : nat) (z : R) : R :=
  match n with
  | O => ndtr z
  | S O => - phi z
  | S (S m as p) => INR p * gauss_prim m z - z ^ p * phi z
  end.

Fixpoint gauss_mom (n : nat) : R :=
  match n with
  | O => 1
  | S O => 0
  | S (S m as p) => INR p * gauss_mom m
  end.

Lemma gauss_prim_facts (n : nat) :
  ((forall z, dl (gauss_prim n) z (z ^ n * phi z)) /\
   lim_minf (gauss_prim n) 0 /\ lim_pinf (gauss_prim n) (gauss_mom n)) /\
  ((forall z, dl (gauss_prim (S n)) z (z ^ S n * phi z)) /\
   lim_minf (gauss_prim (S n)) 0 /\ lim_pinf (gauss_prim (S n)) (gauss_mom (S n))).
Proof.
  induction n as [|n [IH1 IH2]].
  - split; repeat split.
    + intros z. eapply dl_eq; [|apply ndtr_dl]. simpl; ring.
    + apply ndtr_lim_minf.
    + apply ndtr_lim_pinf.
    + intros z. simpl. eapply dl_eq; [|apply dl_opp, phi_dl]. ring.
    + generalize (lim_pinf_opp _ _ (phi_pow_lim_minf 0)). rewrite Ropp_0.
      apply lim_pinf_ext with (M0 := 0). intros; simpl; ring.
    + generalize (lim_pinf_opp _ _ (phi_pow_lim_pinf 0)). rewrite Ropp_0.
      apply lim_pinf_ext with (M0 := 0). intros; simpl; ring.
  - split; [exact IH2|]. destruct IH1 as [D [L1 L2]].
    change (gauss_prim (S (S n))) with (fun z => INR (S n) * gauss_prim n z - z ^ S n * phi z).
    change (gauss_mom (S (S n))) with (INR (S n) * gauss_mom n).
    repeat split.
    + intros z.
      eapply dl_eq; [|apply dl_minus; [apply dl_mult; [apply dl_const|apply D]
                                      |apply dl_mult; [apply dl_pow|apply phi_dl]]].
      cbv beta. simpl pow. ring.
    + unfold lim_minf in *.
      generalize (lim_pinf_minus _ _ _ _ (lim_pinf_scal0 _ (INR (S n)) L1)
                    (phi_pow_lim_minf (S n))).
      unfold lim_minf. rewrite Rminus_0_r. apply lim_pinf_ext with (M0 := 0). intros; ring.
    + generalize (lim_pinf_minus _ _ _ _ (lim_pinf_scal _ (INR (S n)) _ L2)
                    (phi_pow_lim_pinf (S n))).
      rewrite Rminus_0_r. apply lim_pinf_ext with (M0 := 0). intros; ring.
Qed.

Section StandardMoments.
Variable c : R.
Hypothesis c_pos : 0 < c.

Fixpoint semg_prim (n : nat) (z : R) : R :=
  match n with
  | O => ndtr z - semg c z / c
  | S m => gauss_prim n z - z ^ n * semg c z / c + INR n / c * semg_prim m z
  end.

Fixpoint semg_mom (n : nat) : R :=
  match n with
  | O => 1
  | S m => gauss_mom n + INR n / c * semg_mom m
  end.

Lemma semg_prim_dl (n : nat) (z : R) : dl (semg_prim n) z (z ^ n * semg c z).
Proof.
  revert z. induction n as [|n IH]; intros z.
  - simpl. unfold Rdiv.
    eapply dl_eq; [|apply dl_minus; [apply ndtr_dl
                                    | apply dl_mult; [apply (semg_dl c)|apply dl_const]]].
    cbv beta. field. lra.
  - change (semg_prim (S n)) with
      (fun z => gauss_prim (S n) z - z ^ S n * semg c z / c + INR (S n) / c * semg_prim n z).
    destruct (gauss_prim_facts n) as [_ [D _]].
    unfold Rdiv.
    eapply dl_eq; [|apply dl_plus; [apply dl_minus; [apply D|]|]].
    2:{ apply dl_mult; [apply dl_mult; [apply dl_pow|apply (semg_dl c)]|apply dl_const]. }
    2:{ apply dl_mult; [apply dl_const|apply IH]. }
    cbv beta. simpl pow. field. lra.
Qed.

Lemma semg_prim_lim_minf (n : nat) : lim_minf (semg_prim n) 0.
Proof.
  induction n as [|n IH].
  - generalize (lim_pinf_minus _ _ _ _ ndtr_lim_minf
                  (lim_pinf_scal0 _ (/ c) (semg_pow_lim_minf c c_pos 0))).
    rewrite Rminus_0_r. unfold lim_minf.
    apply lim_pinf_ext with (M0 := 0). intros; simpl; unfold Rdiv; ring.
  - destruct (gauss_prim_facts n) as [_ [_ [L _]]].
    generalize (lim_pinf_plus _ _ _ _
                  (lim_pinf_minus _ _ _ _ L
                     (lim_pinf_scal0 _ (/ c) (semg_pow_lim_minf c c_pos (S n))))
                  (lim_pinf_scal0 _ (INR (S n) / c) IH)).
    rewrite Rminus_0_r, Rplus_0_r. unfold lim_minf.
    apply lim_pinf_ext with (M0 := 0). intros x _.
    change (semg_prim (S n) (- x)) with
      (gauss_prim (S n) (- x) - (- x) ^ S n * semg c (- x) / c
       + INR (S n) / c * semg_prim n (- x)).
    unfold Rdiv; ring.
Qed.

Lemma semg_prim_lim_pinf (n : nat) : lim_pinf (semg_prim n) (semg_mom n).
Proof.
  induction n as [|n IH].
  - generalize (lim_pinf_minus _ _ _ _ ndtr_lim_pinf
                  (lim_pinf_scal0 _ (/ c) (semg_pow_lim_pinf c c_pos 0))).
    rewrite Rminus_0_r.
    apply lim_pinf_ext with (M0 := 0). intros; simpl; unfold Rdiv; ring.
  - destruct (gauss_prim_facts n) as [_ [_ [_ L]]].
    generalize (lim_pinf_plus _ _ _ _
                  (lim_pinf_minus _ _ _ _ L
                     (lim_pinf_scal0 _ (/ c) (semg_pow_lim_pinf c c_pos (S n))))
                  (lim_pinf_scal _ (INR (S n) / c) _ IH)).
    rewrite Rminus_0_r.
    apply lim_pinf_ext with (M0 := 0). intros x _.
    change (semg_prim (S n) x) with
      (gauss_prim (S n) x - x ^ S n * semg c x / c + INR (S n) / c * semg_prim n x).
    unfold Rdiv; ring.
Qed.

Lemma semg_moment (n : nat) : newton_integral (fun z => z ^ n * semg c z) (semg_mom n).
Proof.
  exists (semg_prim n). repeat split.
  - apply semg_prim_dl.
  - apply semg_prim_lim_minf.
  - apply semg_prim_lim_pinf.
Qed.
End StandardMoments.

(** ** The EMG density and cumulative function *)

Lemma ni_integral (f : R -> R) (I : R) :
  continuity f -> newton_integral f I -> integral_over_R f I.
Proof.
  intros Hc [F [HF [L1 L2]]] eps He.
  destruct (proj1 (lim_minf_alt F 0) L1 (eps / 2)) as [M1 H1]; [lra|].
  destruct (L2 (eps / 2)) as [M2 H2]; [lra|].
  exists (Rmax (- M1) M2). intros a b Ha Hb. exists (cont_RI f Hc a b).
  change (RiemannInt (cont_RI f Hc a b)) with (cint f Hc a b).
  rewrite (cint_FTC f Hc F HF).
  assert (a < M1 /\ M2 < b) as [Ha' Hb'].
  { generalize (Rmax_l (- M1) M2) (Rmax_r (- M1) M2); lra. }
  specialize (H1 a Ha'). specialize (H2 b Hb'). rewrite Rminus_0_r in H1.
  replace (F b - F a - I) with ((F b - I) + - F a) by ring.
  eapply Rle_lt_trans; [apply Rabs_triang|]. rewrite Rabs_Ropp. lra.
Qed.



Section EMG_analysis.
Variables mu sig lam : R.
Hypothesis sig_pos : 0 < sig.
Hypothesis lam_pos : 0 < lam.

(** Standardised coordinate and the exponential tilt factor. *)
Definition zc (x : R) : R := (x - mu) / sig.
Definition tilt (x : R) : R := exp (- (lam * (x - mu)) + lam * lam * sig * sig / 2).

Lemma pdf_alt (x : R) :
  _pdf x mu sig lam = lam * ndtr (zc x - lam * sig) * tilt x.
Proof.
  unfold _pdf, tilt, zc. rewrite ndtr_erfc, !half_eq.
  replace (- ((x - mu) / sig - lam * sig) / sqrt 2)
    with ((mu + lam * sig ^ 2 - x) / (sig * sqrt 2))
    by (field; generalize sqrt2_pos; lra).
  replace (/ 2 * lam * (2 * mu + lam * sig ^ 2 - 2 * x))
    with (- (lam * (x - mu)) + lam * lam * sig * sig / 2) by field.
  ring.
Qed.






Lemma exp_tilt (x : R) :
  exp (- ((zc x - lam * sig) * (zc x - lam * sig)) / 2) * tilt x = exp (- (zc x * zc x) / 2).
Proof. unfold tilt, zc. rewrite <- exp_plus. f_equal. field. lra. Qed.



Let c := lam * sig.
Lemma c_pos : 0 < c.
Proof. unfold c. now apply Rmult_lt_0_compat. Qed.

Lemma zc_affine (x : R) : zc x = / sig * x + - mu / sig.
Proof. unfold zc. field. lra. Qed.

Lemma pdf_semg (x : R) : _pdf x mu sig lam = / sig * semg c (zc x).
Proof.
  rewrite pdf_alt. unfold semg, tilt, zc, c.
  replace (- (lam * sig * ((x - mu) / sig)) + lam * sig * (lam * sig) / 2)
    with (- (lam * (x - mu)) + lam * lam * sig * sig / 2) by (field; lra).
  field. lra.
Qed.










(** Moments about the location parameter. *)
Definition loc_mom (k : nat) : R := sig ^ k * semg_mom c k.

Lemma loc_moment (k : nat) :
  newton_integral (fun x => (x - mu) ^ k * _pdf x mu sig lam) (loc_mom k).
Proof.
  assert (Ha : 0 < / sig) by now apply Rinv_0_lt_compat.
  generalize (ni_scal _ (sig ^ k) _
                (ni_affine _ (/ sig) (- mu / sig) _ Ha (semg_moment c c_pos k))).
  apply ni_ext. intros x. rewrite pdf_semg, <- zc_affine.
  replace (x - mu) with (sig * zc x) by (unfold zc; field; lra).
  rewrite Rpow_mult_distr. ring.
Qed.

Lemma loc_mom_0 : loc_mom 0 = 1.
Proof. unfold loc_mom. simpl. ring. Qed.






Lemma pdf_total : newton_integral (fun x => _pdf x mu sig lam) 1.
Proof.
  generalize (loc_moment 0). rewrite loc_mom_0. apply ni_ext. intros; simpl; ring.
Qed.




End EMG_analysis.





(** ** The sum of a normal and an exponential variable *)




Section SumOfNormalAndExponential.
Variables mu sig lam x : R.
Hypothesis sig_pos : 0 < sig.
Hypothesis lam_pos : 0 < lam.








End SumOfNormalAndExponential.


(** ** Interpolation on the quantile table *)






Section InterpolationOnGrid.
Variable F : R -> R.
Hypothesis F_incr : forall a b, a < b -> F a < F b.






End InterpolationOnGrid.






Section TableQuantile.
Variables mu sig lam : R.
Hypothesis sig_pos : 0 < sig.
Hypothesis lam_pos : 0 < lam.

Let F (x : R) : R := rv_continuous.cdf _cdf x mu sig lam.
Let lo : R := mu - 50 * sqrt (sig ^ 2 + 1 / lam ^ 2).
Let hi : R := mu + 50 * sqrt (sig ^ 2 + 1 / lam ^ 2).




End TableQuantile.

(** ** The parameter validator *)

Lemma isfinite_spec (x : pyfloat) : isfinite x = true <-> is_finite x.
Proof.
  unfold is_finite. destruct x; simpl; split; intros H; try discriminate; eauto;
    destruct H as [r H]; discriminate.
Qed.

Lemma gt0_spec (x : pyfloat) : gt0 x = true <-> is_positive x.
Proof.
  destruct x as [r| | |]; simpl.
  - destruct (Rlt_dec 0 r); split; intros H; auto; try discriminate; contradiction.
  - split; auto.
  - split; [discriminate | contradiction].
  - split; [discriminate | contradiction].
Qed.

Lemma argcheck_true_iff (mu sig lam : pyfloat) :
  _argcheck mu sig lam = true <-> is_finite mu /\ is_positive sig /\ is_positive lam.
Proof.
  unfold _argcheck. rewrite !andb_true_iff, isfinite_spec, !gt0_spec. tauto.
Qed.


(** ** Arithmetic in the range of binary64 *)

Lemma huge_big : 4096 < huge.
Proof.
  unfold huge. apply Rlt_le_trans with (2 ^ 13); [simpl; lra|].
  apply Rle_pow; [lra | lia].
Qed.

Lemma tiny_pos : 0 < tiny.
Proof. unfold tiny. apply Rinv_0_lt_compat, pow_lt. lra. Qed.

Lemma tiny_small : tiny < / 4096.
Proof.
  unfold tiny. apply Rinv_lt_contravar.
  - apply Rmult_lt_0_compat; [lra | apply pow_lt; lra].
  - apply Rlt_le_trans with (2 ^ 13); [simpl; lra|].
    apply Rle_pow; [lra | lia].
Qed.

Lemma exp_1_ge_2 : 2 <= exp 1.
Proof. generalize (exp_ineq1_le 1). lra. Qed.

Lemma exp_ge_pow2 (n : nat) (x : R) : INR n <= x -> 2 ^ n <= exp x.
Proof.
  intros H. apply Rle_trans with (exp (INR n)).
  - replace (INR n) with (INR n * 1) by ring. rewrite exp_mult_nat.
    apply pow_incr. generalize exp_1_ge_2. lra.
  - destruct H as [H|H]; [left; now apply exp_increasing | rewrite H; lra].
Qed.

Lemma exp_overflows (x : R) : 1024 <= x -> huge <= exp x.
Proof.
  intros H. unfold huge. apply exp_ge_pow2.
  rewrite INR_IZR_INZ. replace (Z.of_nat 1024) with 1024%Z by reflexivity. exact H.
Qed.

Lemma exp_neg_le_pow2 (n : nat) (x : R) : INR n <= x -> exp (- x) <= / 2 ^ n.
Proof.
  intros H. rewrite exp_Ropp.
  apply Rinv_le_contravar; [apply pow_lt; lra|]. now apply exp_ge_pow2.
Qed.

Lemma exp_underflows (x : R) : 1075 <= x -> exp (- x) <= tiny.
Proof.
  intros H. unfold tiny. apply exp_neg_le_pow2.
  rewrite INR_IZR_INZ. replace (Z.of_nat 1075) with 1075%Z by reflexivity. exact H.
Qed.

Lemma ndtr_underflows (z : R) : z <= - 47 -> Rabs (ndtr z) <= tiny.
Proof.
  intros H. rewrite Rabs_pos_eq by (generalize (ndtr_bounds z); lra).
  apply Rle_trans with (exp (- (z * z) / 2)); [apply ndtr_tail; lra|].
  replace (- (z * z) / 2) with (- (z * z / 2)) by field.
  apply exp_underflows. nra.
Qed.

Lemma erfc_underflows (x : R) : 0 <= x -> 1076 <= x * x -> Rabs (erfc x) <= tiny.
Proof.
  intros H0 H. rewrite Rabs_pos_eq by (generalize (erfc_pos x); lra).
  apply Rle_trans with (2 * gauss x); [now apply erfc_tail2|].
  unfold gauss, tiny.
  assert (E : exp (- (x * x)) <= / 2 ^ 1076).
  { apply exp_neg_le_pow2. rewrite INR_IZR_INZ.
    replace (Z.of_nat 1076) with 1076%Z by reflexivity. exact H. }
  replace (2 ^ 1076) with (2 * 2 ^ 1075) in E by (change (2 ^ 1076) with (2 * 2 ^ 1075); ring).
  rewrite Rinv_mult in E. lra.
Qed.

Lemma overflow_Fin (r : R) : Rabs r < huge -> F64.overflow r = Fin r.
Proof.
  intros H. apply Rabs_def2 in H. unfold F64.overflow.
  destruct (Rle_dec huge r); [lra|]. destruct (Rle_dec r (- huge)); [lra|]. reflexivity.
Qed.

Lemma fl_Fin (r : R) : tiny < Rabs r < huge -> F64.fl r = Fin r.
Proof.
  intros [H1 H2]. unfold F64.fl. destruct (Rle_dec (Rabs r) tiny); [lra|].
  now apply overflow_Fin.
Qed.

Lemma fl_zero (r : R) : Rabs r <= tiny -> F64.fl r = Fin 0.
Proof. intros H. unfold F64.fl. destruct (Rle_dec (Rabs r) tiny); [reflexivity | lra]. Qed.

Lemma fl_PosInf (r : R) : huge <= r -> F64.fl r = PosInf.
Proof.
  intros H. unfold F64.fl, F64.overflow.
  assert (tiny < Rabs r).
  { rewrite Rabs_pos_eq by (generalize huge_big; lra).
    generalize huge_big tiny_small. lra. }
  destruct (Rle_dec (Rabs r) tiny); [lra|].
  destruct (Rle_dec huge r); [reflexivity | lra].
Qed.

Lemma add_Fin (x y r : R) : x + y = r -> Rabs r < huge -> F64.add (Fin x) (Fin y) = Fin r.
Proof. intros <- H. now apply overflow_Fin. Qed.

Lemma sub_Fin (x y r : R) : x - y = r -> Rabs r < huge -> F64.sub (Fin x) (Fin y) = Fin r.
Proof. intros <- H. unfold F64.sub. cbn [F64.neg]. now apply add_Fin. Qed.

Lemma mul_Fin (x y r : R) :
  x * y = r -> tiny < Rabs r < huge -> F64.mul (Fin x) (Fin y) = Fin r.
Proof. intros <- H. now apply fl_Fin. Qed.

Lemma mul_Fin_0 (x y : R) : x * y = 0 -> F64.mul (Fin x) (Fin y) = Fin 0.
Proof.
  intros H. cbn [F64.mul]. apply fl_zero. rewrite H, Rabs_R0.
  generalize tiny_pos. lra.
Qed.

Lemma div_Fin (x y r : R) :
  y <> 0 -> x / y = r -> tiny < Rabs r < huge -> F64.div (Fin x) (Fin y) = Fin r.
Proof.
  intros Hy <- H. cbn [F64.div]. destruct (Req_dec_T y 0); [contradiction|].
  now apply fl_Fin.
Qed.


Lemma gt0_Fin (r : R) : 0 < r -> gt0 (Fin r) = true.
Proof. intros H. cbn. destruct (Rlt_dec 0 r); [reflexivity | lra]. Qed.

(** Magnitudes between 2^-12 and 2^12 are well inside the range. *)
Ltac in_range :=
  generalize tiny_small huge_big tiny_pos; intros;
  match goal with
  | |- _ < Rabs ?r < _ =>
      unfold Rabs; destruct (Rcase_abs r); lra
  | |- Rabs ?r < _ =>
      unfold Rabs; destruct (Rcase_abs r); lra
  end.

Ltac side := first [ lra | in_range | (intros ?; lra) ].

Lemma sub_NaN (a : pyfloat) : F64.sub a NaN = NaN.
Proof. destruct a; reflexivity. Qed.

Lemma mul_0_PosInf : F64.mul (Fin 0) PosInf = NaN.
Proof.
  cbn. destruct (Rlt_dec 0 0); [lra|]. reflexivity.
Qed.

Lemma mul_pos_PosInf (x : R) : 0 < x -> F64.mul (Fin x) PosInf = PosInf.
Proof. intros H. cbn. destruct (Rlt_dec 0 x); [reflexivity | lra]. Qed.

Lemma mul_PosInf_0 : F64.mul PosInf (Fin 0) = NaN.
Proof.
  cbn. destruct (Rlt_dec 0 0); [lra|]. reflexivity.
Qed.

Lemma ndtr64_underflows (z : R) : z <= - 47 -> F64.ndtr (Fin z) = Fin 0.
Proof. intros H. cbn. apply fl_zero. now apply ndtr_underflows. Qed.

Lemma exp64_overflows (x : R) : 1024 <= x -> F64.exp (Fin x) = PosInf.
Proof. intros H. cbn. apply fl_PosInf. now apply exp_overflows. Qed.

Lemma erfc64_underflows (x : R) : 0 <= x -> 1076 <= x * x -> F64.erfc (Fin x) = Fin 0.
Proof. intros H0 H. cbn. apply fl_zero. now apply erfc_underflows. Qed.

Lemma cdf64_nan_centre : F64._cdf (Fin 0) (Fin 0) (Fin 1) (Fin 50) = NaN.
Proof.
  unfold F64._cdf, F64.norm.cdf, F64.pow2. cbv zeta.
  rewrite (sub_Fin 0 0 0) by side.
  rewrite (mul_Fin_0 50 0) by side.
  rewrite (mul_Fin 50 1 50) by side.
  rewrite (gt0_Fin 50) by lra.
  rewrite (mul_Fin 50 50 2500) by side.
  rewrite (sub_Fin 0 2500 (- 2500)) by side.
  rewrite (div_Fin (- 2500) 50 (- 50)) by side.
  rewrite (ndtr64_underflows (- 50)) by lra.
  cbn [F64.neg].
  rewrite (mul_Fin 0.5 2500 1250) by side.
  rewrite (add_Fin (- 0) 1250 1250) by side.
  rewrite (exp64_overflows 1250) by lra.
  rewrite mul_0_PosInf. apply sub_NaN.
Qed.

Lemma sqrt64_Fin (x : R) : 0 <= x -> F64.sqrt (Fin x) = Fin (sqrt x).
Proof. intros H. cbn. destruct (Rle_dec 0 x); [reflexivity | lra]. Qed.

Lemma sqrt2_bounds : 1 < sqrt 2 < 2.
Proof.
  assert (E4 : sqrt 4 = 2).
  { replace 4 with (2 * 2) by ring. apply sqrt_square. lra. }
  assert (A : sqrt 1 < sqrt 2) by (apply sqrt_lt_1; lra).
  assert (B : sqrt 2 < sqrt 4) by (apply sqrt_lt_1; lra).
  rewrite sqrt_1 in A. lra.
Qed.

Lemma pdf64_nan_centre : F64._pdf (Fin 0) (Fin 0) (Fin 1) (Fin 50) = NaN.
Proof.
  unfold F64._pdf, F64.pow2. cbv zeta.
  rewrite (mul_Fin 0.5 50 25) by side.
  rewrite (mul_Fin_0 2 0) by side.
  rewrite (mul_Fin 1 1 1) by side.
  rewrite (mul_Fin 50 1 50) by side.
  rewrite (add_Fin 0 50 50) by side.
  rewrite (sub_Fin 50 0 50) by side.
  rewrite (mul_Fin 25 50 1250) by side.
  rewrite (exp64_overflows 1250) by lra.
  rewrite (mul_pos_PosInf 25) by lra.
  rewrite (sqrt64_Fin 2) by lra.
  generalize sqrt2_bounds (sqrt_sqrt 2). intros B S.
  rewrite (mul_Fin 1 (sqrt 2) (sqrt 2)) by side.
  rewrite (div_Fin 50 (sqrt 2) (50 / sqrt 2)).
  - rewrite erfc64_underflows.
    + apply mul_PosInf_0.
    + left. apply Rdiv_lt_0_compat; lra.
    + replace (50 / sqrt 2 * (50 / sqrt 2)) with (2500 / (sqrt 2 * sqrt 2)) by (field; lra).
      rewrite S by lra. lra.
  - lra.
  - reflexivity.
  - assert (25 < 50 / sqrt 2 < 50).
    { split.
      - apply Rmult_lt_reg_r with (sqrt 2); [lra|]. unfold Rdiv.
        rewrite Rmult_assoc, Rinv_l by lra. lra.
      - apply Rmult_lt_reg_r with (sqrt 2); [lra|]. unfold Rdiv.
        rewrite Rmult_assoc, Rinv_l by lra. lra. }
    in_range.
Qed.

(** ** The interpolation scan over floats *)










Section ZeroRun.
Variable F : R -> pyfloat.
Variables h a c : R.
Hypothesis h_pos : 0 < h.
Hypothesis F_zero : forall g, a <= g <= c -> F g = Fin 0.

End ZeroRun.

(** ** The table of EMG2(0, 1, 0.5) over floats *)





Lemma argcheck_0_1_half : _argcheck (Fin 0) (Fin 1) (Fin 0.5) = true.
Proof.
  unfold _argcheck. cbn [isfinite andb]. rewrite !gt0_Fin by lra. reflexivity.
Qed.





(** ** The interpolation scan on a table of finite values *)



Section FiniteTable.
Variable F : R -> pyfloat.
Variable V : R -> R.
Variable q : R.





End FiniteTable.

(** ** The table-interpolated quantile over floats *)





Section QuantileTable.
Variable cdf : pyfloat -> pyfloat -> pyfloat -> pyfloat -> pyfloat.
Variable V : R -> R.
Variables mu sig lam : pyfloat.
Variables start stop : R.
Hypothesis start_ok : F64.table_start mu sig lam = Fin start.
Hypothesis stop_ok : F64.table_stop mu sig lam = Fin stop.
Hypothesis start_lt_stop : start < stop.
Hypothesis table_finite :
  forall g, In g (arange start stop 0.01) ->
            cdf (Fin g) mu sig lam = Fin (V g) /\ 0 <= V g <= 1.







End QuantileTable.

(** ** Bounds near the centre of EMG(0, 1, 0.5) *)






(** ** Evaluation with parameters that fail the domain check *)









Lemma pow2_1000_small : 4096 < 2 ^ 1000 /\ 2 * 2 ^ 1000 < huge.
Proof.
  split.
  - apply Rlt_le_trans with (2 ^ 13); [simpl; lra|]. apply Rle_pow; [lra | lia].
  - change (2 * 2 ^ 1000) with (2 ^ 1001). unfold huge. apply Rlt_pow; [lra | lia].
Qed.

(** Far in the left tail of EMG(0, 1, 0.5) the exponential factor of _cdf
    overflows while the normal cumulative values underflow. *)
Lemma cdf64_nan_far_left (x : R) :
  - 2 ^ 1000 <= x <= - 2100 -> F64._cdf (Fin x) (Fin 0) (Fin 1) (Fin 0.5) = NaN.
Proof.
  intros [H1 H2]. destruct pow2_1000_small as [P1 P2].
  assert (T := tiny_small). assert (T0 := tiny_pos).
  assert (B : forall r, x - 1 <= r <= - 1000 -> tiny < Rabs r < huge).
  { intros r Hr. rewrite Rabs_left by lra. lra. }
  unfold F64._cdf, F64.norm.cdf, F64.pow2. cbv zeta.
  rewrite (sub_Fin x 0 x); [|lra | apply B; lra].
  rewrite (mul_Fin 0.5 x (0.5 * x)); [|reflexivity | apply B; lra].
  rewrite (mul_Fin 0.5 1 0.5) by side.
  rewrite (gt0_Fin 0.5) by lra.
  rewrite (mul_Fin 0.5 0.5 0.25) by side.
  rewrite (sub_Fin (0.5 * x) 0.25 (0.5 * x - 0.25)); [|reflexivity | apply B; lra].
  rewrite (div_Fin (0.5 * x - 0.25) 0.5 (x - 0.5)); [|lra | lra | apply B; lra].
  rewrite (ndtr64_underflows (x - 0.5)) by lra.
  cbn [F64.neg].
  rewrite (mul_Fin 0.5 0.25 0.125) by side.
  rewrite (add_Fin (- (0.5 * x)) 0.125 (- (0.5 * x) + 0.125)); [|reflexivity|].
  2:{ rewrite Rabs_right by lra. lra. }
  rewrite (exp64_overflows (- (0.5 * x) + 0.125)) by lra.
  rewrite mul_0_PosInf. apply sub_NaN.
Qed.

(** ** The cumulative function of EMG(0, 1, 0.5) over floats *)


















(** ** The table of EMG2(0, 1, 0.5) as the program computes it *)









(** *** Around 0.005 *)








(** ** The claims *)



(** C2.  The claim fails on the code at valid parameters.  Where exp
    overflows while the normal cumulative value (in _cdf) or erfc (in _pdf)
    underflows, the product is an infinity times 0.0 and the method returns
    NaN instead of a value in [0, 1]: for (mu, sig, lam) = (0, 1, 0.5) on the
    whole left tail from x = -2100 down to -2^1000, and for (0, 1, 50) at the
    centre x = mu.  Both triples pass _argcheck, and the public cdf hands
    the NaN through. *)
Theorem cdf_is_nan_where_exp_overflows (x : R) :
  - 2 ^ 1000 <= x <= - 2100 ->
  _argcheck (Fin 0) (Fin 1) (Fin 0.5) = true /\
  F64._cdf (Fin x) (Fin 0) (Fin 1) (Fin 0.5) = NaN /\
  F64.cdf (Fin x) (Fin 0) (Fin 1) (Fin 0.5) = NaN /\
  _argcheck (Fin 0) (Fin 1) (Fin 50) = true /\
  F64._cdf (Fin 0) (Fin 0) (Fin 1) (Fin 50) = NaN /\
  F64.cdf (Fin 0) (Fin 0) (Fin 1) (Fin 50) = NaN /\
  F64._pdf (Fin 0) (Fin 0) (Fin 1) (Fin 50) = NaN.
Proof.
  intros Hx.
  assert (A1 : _argcheck (Fin 0) (Fin 1) (Fin 50) = true).
  { unfold _argcheck. cbn [isfinite andb]. rewrite !gt0_Fin by lra. reflexivity. }
  assert (A2 := argcheck_0_1_half).
  assert (N := cdf64_nan_far_left x Hx).
  split; [exact A2|]. split; [exact N|]. split.
  { unfold F64.cdf, F64.rv_continuous.cdf. rewrite A2. exact N. }
  split; [exact A1|]. split; [exact cdf64_nan_centre|]. split.
  { unfold F64.cdf, F64.rv_continuous.cdf. rewrite A1. exact cdf64_nan_centre. }
  exact pdf64_nan_centre.
Qed.

Lemma cdf_is_nan_where_exp_overflows_example :
  - 2 ^ 1000 <= - 3000 <= - 2100 /\
  F64._cdf (Fin (- 3000)) (Fin 0) (Fin 1) (Fin 0.5) = NaN /\
  F64.cdf (Fin (- 3000)) (Fin 0) (Fin 1) (Fin 0.5) = NaN.
Proof.
  assert (H : - 2 ^ 1000 <= - 3000 <= - 2100).
  { destruct pow2_1000_small as [P _]. lra. }
  split; [exact H|].
  destruct (cdf_is_nan_where_exp_overflows (- 3000) H) as [_ [A [B _]]].
  split; [exact A | exact B].
Defined.








(** C6.  _argcheck returns true exactly when mu is finite, sig > 0 and lam > 0;
    in particular it returns false for a zero or negative sig and for an
    infinite or NaN mu. *)
Theorem argcheck_accepts_exactly_valid (mu sig lam : pyfloat) :
  (_argcheck mu sig lam = true <-> is_finite mu /\ is_positive sig /\ is_positive lam)
  /\ (forall r, sig = Fin r -> r <= 0 -> _argcheck mu sig lam = false)
  /\ (mu = PosInf \/ mu = NegInf \/ mu = NaN -> _argcheck mu sig lam = false).
Proof.
  split; [apply argcheck_true_iff|]. split.
  - intros r -> Hr. unfold _argcheck. simpl. destruct (Rlt_dec 0 r); [lra|].
    now rewrite andb_false_r.
  - intros [-> | [-> | ->]]; reflexivity.
Qed.




(** C8.  Run from the top, the notebook stops in code cell 7: the fit call
    reads the global name EMG, which no statement binds.  The six cells before
    it complete and leave EMG3, not EMG, bound. *)
Theorem fit_cell_raises_NameError :
  run_cells 1 builtins notebook = NameError 7 "EMG" /\
  exists ns, run_cells 1 builtins (firstn 6 notebook) = Completed ns /\
             existsb (String.eqb "EMG3") ns = true /\
             existsb (String.eqb "EMG") ns = false.
Proof.
  split; [reflexivity|]. eexists. split; [reflexivity|]. split; reflexivity.
Qed.

(** C9.  EMG_gen2 and EMG_gen3 inherit _pdf, _cdf, _stats and _argcheck from
    EMG_gen1 unchanged, so the instances EMG1, EMG2 and EMG3 are bound to the
    same four functions; EMG2 differs from EMG1 in _ppf only and EMG3 in _rvs
    only. *)
Theorem variants_share_inherited_methods :
  (forall inst x mu sig lam, In inst [EMG1; EMG2; EMG3] ->
     density inst x mu sig lam = Some (_pdf x mu sig lam) /\
     cumulative inst x mu sig lam = Some (_cdf x mu sig lam)) /\
  (forall inst mu sig lam, In inst [EMG1; EMG2; EMG3] ->
     moments inst mu sig lam = Some (_stats mu sig lam)) /\
  (forall inst mu sig lam, In inst [EMG1; EMG2; EMG3] ->
     validate_params inst mu sig lam = Some (_argcheck mu sig lam)) /\
  bound_method EMG1 m_pdf = Some (cls_EMG_gen1, PdfImpl _pdf) /\
  bound_method EMG1 m_cdf = Some (cls_EMG_gen1, CdfImpl _cdf) /\
  bound_method EMG1 m_stats = Some (cls_EMG_gen1, StatsImpl _stats) /\
  bound_method EMG1 m_argcheck = Some (cls_EMG_gen1, ArgcheckImpl _argcheck) /\
  (forall m, m <> m_ppf -> bound_method EMG2 m = bound_method EMG1 m) /\
  (forall m, m <> m_rvs -> bound_method EMG3 m = bound_method EMG1 m) /\
  bound_method EMG2 m_ppf = Some (cls_EMG_gen2, PpfImpl EMG_gen2._ppf) /\
  bound_method EMG1 m_ppf = None /\
  bound_method EMG3 m_ppf = None /\
  bound_method EMG3 m_rvs = Some (cls_EMG_gen3, RvsImpl EMG_gen3._rvs) /\
  bound_method EMG1 m_rvs = None /\
  bound_method EMG2 m_rvs = None.
Proof.
  split; [|split; [|split]].
  - intros inst x mu sig lam [<- | [<- | [<- | []]]]; split; reflexivity.
  - intros inst mu sig lam [<- | [<- | [<- | []]]]; reflexivity.
  - intros inst mu sig lam [<- | [<- | [<- | []]]]; reflexivity.
  - repeat split; try reflexivity.
    + intros m Hm. destruct m; try reflexivity. now elim Hm.
    + intros m Hm. destruct m; try reflexivity. now elim Hm.
Qed.




(** * Further properties of the notebook's code

    The location-scale structure, the derivative of the density, moments of
    every order, the behaviour of _stats under a sign change, the draws of
    _rvs, the shape, monotonicity and accuracy of the exact interpolation
    table, and the moments of the normal distribution the notebook starts
    from. *)



Section InterpolationMore.
Variable F : R -> R.
Hypothesis F_incr : forall a b, a < b -> F a < F b.

End InterpolationMore.


Section TableMore.
Variables mu sig lam : R.
Hypothesis sig_pos : 0 < sig.
Hypothesis lam_pos : 0 < lam.

Let F (x : R) : R := rv_continuous.cdf _cdf x mu sig lam.
Let lo : R := mu - 50 * sqrt (sig ^ 2 + 1 / lam ^ 2).
Let hi : R := mu + 50 * sqrt (sig ^ 2 + 1 / lam ^ 2).





End TableMore.










(** X10.  _stats does not reject a negative sig: for non-zero sig and lam,
    _stats at (mu, - sig, lam) returns the mean, variance and kurtosis of
    (mu, sig, lam) and the negated skewness. *)
Theorem stats_sign_of_sig (mu sig lam : R) :
  sig <> 0 -> lam <> 0 ->
  let '(mean, var, skew, kurt) := _stats mu sig lam in
  _stats mu (- sig) lam = (mean, var, - skew, kurt).
Proof.
  intros Hs Hl. unfold _stats.
  replace ((- sig) ^ 2) with (sig ^ 2) by ring.
  replace ((- sig * lam) ^ 2) with ((sig * lam) ^ 2) by ring.
  replace ((- sig * lam) ^ 4) with ((sig * lam) ^ 4) by ring.
  replace (2 / (- sig * lam) ^ 3) with (- (2 / (sig * lam) ^ 3)) by (field; lra).
  f_equal. f_equal. ring.
Qed.

Lemma stats_sign_of_sig_example :
  1 <> 0 /\ 0.5 <> 0 /\
  let '(mean, var, skew, kurt) := _stats 0 1 0.5 in
  _stats 0 (- 1) 0.5 = (mean, var, - skew, kurt).
Proof.
  assert (H1 : 1 <> 0) by lra. assert (H2 : 0.5 <> 0) by lra.
  split; [exact H1|]. split; [exact H2|].
  exact (stats_sign_of_sig 0 1 0.5 H1 H2).
Defined.

Section DensityOfTheSum.
Variables mu sig lam x : R.
Hypothesis sig_pos : 0 < sig.
Hypothesis lam_pos : 0 < lam.








End DensityOfTheSum.




(** X19.  The moments of st.norm(loc=0, scale=1) that cell 3 prints: the n-th
    raw moment exists and equals gauss_mom n, with values 0, 1, 0, 3 for
    n = 1..4 and the recurrence N (n+2) = (n+1) * N n. *)
Theorem standard_normal_moments (n : nat) :
  integral_over_R (fun x => x ^ n * norm.pdf x 0 1) (gauss_mom n) /\
  gauss_mom 1 = 0 /\ gauss_mom 2 = 1 /\ gauss_mom 3 = 0 /\ gauss_mom 4 = 3 /\
  gauss_mom (S (S n)) = INR (S n) * gauss_mom n.
Proof.
  assert (E : forall x, x ^ n * phi x = x ^ n * norm.pdf x 0 1).
  { intros x. unfold norm.pdf. f_equal. replace ((x - 0) / 1) with x by field. field. }
  split; [|repeat split; simpl; ring].
  apply ni_integral.
  - intros x. eapply dl_continuity_pt.
    apply derivable_pt_lim_ext with (f := fun y => y ^ n * phi y).
    { intros y. apply E. }
    apply dl_mult; [apply derivable_pt_lim_pow | apply phi_dl].
  - apply (ni_ext _ _ _ E).
    destruct (gauss_prim_facts n) as [[D [L1 L2]] _].
    exists (gauss_prim n). auto.
Qed.

(** X12.  EMG_gen3._rvs with samplers that each return [size] draws returns
    [size] samples; sample i is normal draw i plus exponential draw i, and is
    at least the normal draw when the exponential draws are non-negative. *)
Theorem rvs_is_elementwise_sum (norm_rvs expon_rvs : sampler) (size : nat) (mu sig lam : R) :
  List.length (norm_rvs mu sig size) = size ->
  List.length (expon_rvs 0 (1 / lam) size) = size ->
  List.length (EMG_gen3._rvs norm_rvs expon_rvs size mu sig lam) = size /\
  (forall i, (i < size)%nat ->
     nth i (EMG_gen3._rvs norm_rvs expon_rvs size mu sig lam) 0
     = nth i (norm_rvs mu sig size) 0 + nth i (expon_rvs 0 (1 / lam) size) 0) /\
  ((forall e, In e (expon_rvs 0 (1 / lam) size) -> 0 <= e) ->
   forall i, (i < size)%nat ->
     nth i (norm_rvs mu sig size) 0
     <= nth i (EMG_gen3._rvs norm_rvs expon_rvs size mu sig lam) 0).
Proof.
  intros H1 H2. unfold EMG_gen3._rvs, py_add, float_add.
  set (ns := norm_rvs mu sig size) in *. set (es := expon_rvs 0 (1 / lam) size) in *.
  assert (N : forall i, (i < size)%nat ->
            nth i (map (fun p => fst p + snd p) (combine ns es)) 0 = nth i ns 0 + nth i es 0).
  { intros i Hi.
    rewrite (nth_indep _ 0 ((fun p => fst p + snd p) (0, 0))).
    2:{ rewrite length_map, length_combine, H1, H2. lia. }
    rewrite (map_nth (fun p => fst p + snd p)), combine_nth by lia. reflexivity. }
  split; [|split].
  - rewrite length_map, length_combine, H1, H2. lia.
  - exact N.
  - intros He i Hi. rewrite (N i Hi).
    assert (0 <= nth i es 0) by (apply He, nth_In; lia). lra.
Qed.

Lemma rvs_is_elementwise_sum_example :
  List.length (repeat 0 3) = 3%nat /\ List.length (repeat (1 / 0.5) 3) = 3%nat /\
  List.length (EMG_gen3._rvs (fun loc _ n => repeat loc n) (fun _ scale n => repeat scale n)
                             3 0 1 0.5) = 3%nat.
Proof.
  assert (H1 : List.length (repeat 0 3) = 3%nat) by reflexivity.
  assert (H2 : List.length (repeat (1 / 0.5) 3) = 3%nat) by reflexivity.
  split; [exact H1|]. split; [exact H2|].
  exact (proj1 (rvs_is_elementwise_sum (fun loc _ n => repeat loc n)
                  (fun _ scale n => repeat scale n) 3 0 1 0.5 H1 H2)).
Defined.












